(** * A shallow embedding of [quadtree/quad_region.py]

    The region quadtree over integer points: [QuadNode] (insertion,
    removal, compression of full quadrants, traversal) and [QuadTree]
    (canonical region, the public set operations).

    Conventions of the embedding.
    - A Python [None] in a child slot or in [QuadTree.root] is [Empty];
      a [QuadNode] object is [Node region ne nw sw se full].  The
      [origin] attribute is not stored: it is recomputed from the region
      exactly as [QuadNode.__init__] does.
    - Methods that mutate [self] return the node after the call together
      with their Python result.  They return [option]: [None] is a Python
      fault (an [AttributeError] on [None.add] / [None.remove], or a
      recursion that never reaches a point region). *)

From Stdlib Require Import ZArith List Bool Lia Permutation.
Import ListNotations.
Open Scope Z_scope.

(** ** Regions and points *)

(** Modelled from the spec: [adk.region.Region] is not part of the sources.
    A region is a value with four integer bounds; the constructor takes them
    in the order [Region(x_min, y_min, x_max, y_max)] used by
    [QuadNode.subregion]. *)
Record Region := mkRegion { x_min : Z; y_min : Z; x_max : Z; y_max : Z }.

(** A point [(x, y)]; [X] and [Y] index it. *)
Definition Point := (Z * Z)%type.

(** [containsPoint]: closed on min, open on max. *)
Definition containsPoint (region : Region) (point : Point) : bool :=
  if fst point <? x_min region then false else
  if fst point >=? x_max region then false else
  if snd point <? y_min region then false else
  if snd point >=? y_max region then false else true.

(** Quadrant constants [NE = 0], [NW = 1], [SW = 2], [SE = 3]. *)
Inductive Quadrant := NE | NW | SW | SE.

(** ** Quadtree nodes *)

Inductive slot :=
| Empty
| Node (region : Region) (ne nw sw se : slot) (full : bool).

(** [self.origin], as computed in [QuadNode.__init__] ([//] is floor
    division, as [Z.div]). *)
Definition origin (r : Region) : Point :=
  (x_min r + (x_max r - x_min r) / 2, y_min r + (y_max r - y_min r) / 2).

(** [QuadNode.isPoint]. *)
Definition isPoint (r : Region) : bool :=
  (x_min r + 1 =? x_max r) && (y_min r + 1 =? y_max r).

(** [QuadNode.quadrant]. *)
Definition quadrant (r : Region) (pt : Point) : Quadrant :=
  if fst pt >=? fst (origin r) then
    if snd pt >=? snd (origin r) then NE else SE
  else
    if snd pt >=? snd (origin r) then NW else SW.

(** [QuadNode.subregion]. *)
Definition subregion (r : Region) (q : Quadrant) : Region :=
  let (ox, oy) := origin r in
  match q with
  | NE => mkRegion ox oy (x_max r) (y_max r)
  | NW => mkRegion (x_min r) oy ox (y_max r)
  | SW => mkRegion (x_min r) (y_min r) ox oy
  | SE => mkRegion ox (y_min r) (x_max r) oy
  end.

(** [self.children[q]]. *)
Definition pick (q : Quadrant) (ne nw sw se : slot) : slot :=
  match q with NE => ne | NW => nw | SW => sw | SE => se end.

(** The node [self] after [self.children[q] = c]. *)
Definition node_with (r : Region) (q : Quadrant) (c ne nw sw se : slot)
    (full : bool) : slot :=
  match q with
  | NE => Node r c nw sw se full
  | NW => Node r ne c sw se full
  | SW => Node r ne nw c se full
  | SE => Node r ne nw sw c full
  end.

Definition is_full (n : slot) : bool :=
  match n with Empty => false | Node _ _ _ _ _ f => f end.

Definition is_empty (n : slot) : bool :=
  match n with Empty => true | Node _ _ _ _ _ _ => false end.

(** [QuadNode.childrenFull]. *)
Definition childrenFull (ne nw sw se : slot) : bool :=
  is_full ne && is_full nw && is_full sw && is_full se.

(** [QuadNode.childrenNull]. *)
Definition childrenNull (ne nw sw se : slot) : bool :=
  is_empty ne && is_empty nw && is_empty sw && is_empty se.

(** [QuadNode(r, True)]: a full node without children. *)
Definition leaf (r : Region) : slot := Node r Empty Empty Empty Empty true.

(** The tail of [QuadNode.add]: [if self.childrenFull(): self.full = True;
    self.children = [None] * 4]. *)
Definition collapse (n : slot) : slot :=
  match n with
  | Node r ne nw sw se _ =>
      if childrenFull ne nw sw se then leaf r else n
  | Empty => Empty
  end.

(** The tail of [QuadNode.remove]: [return (None, ...)] when every child
    slot is [None], else [(self, ...)]. *)
Definition prune (n : slot) : slot :=
  match n with
  | Node _ ne nw sw se _ => if childrenNull ne nw sw se then Empty else n
  | Empty => Empty
  end.

(** Bound on the depth of the recursion below a fresh node over [r]: every
    step towards a point of [r] shrinks the width or the height. *)
Definition rfuel (r : Region) : nat :=
  Z.to_nat (x_max r - x_min r + (y_max r - y_min r)).

(** [QuadNode(r).add(pt)] on a freshly created, empty node: the branch
    [self.children[q] == None] of [QuadNode.add], taken at every level of
    the fresh chain.  [fuel] bounds the recursion ([None] when exhausted). *)
Fixpoint add_fresh (fuel : nat) (r : Region) (pt : Point)
    : option (slot * bool) :=
  match fuel with
  | O => None
  | S fuel' =>
      let q := quadrant r pt in
      let sr := subregion r q in
      match (if isPoint sr then Some (leaf sr)
             else option_map fst (add_fresh fuel' sr pt)) with
      | None => None
      | Some c =>
          Some (collapse (node_with r q c Empty Empty Empty Empty false), true)
      end
  end.

(** [self.children[q] = QuadNode(self.subregion(q))], then either
    [.full = True] (point region) or [.add(pt)] (result ignored). *)
Definition new_child (sr : Region) (pt : Point) : option slot :=
  if isPoint sr then Some (leaf sr)
  else option_map fst (add_fresh (rfuel sr) sr pt).

(** [QuadNode.add]; calling it on [Empty] is [None.add], a fault. *)
Fixpoint add (n : slot) (pt : Point) {struct n} : option (slot * bool) :=
  match n with
  | Empty => None
  | Node r ne nw sw se f =>
      let q := quadrant r pt in
      let c := match q with NE => ne | NW => nw | SW => sw | SE => se end in
      match c with
      | Empty =>
          match new_child (subregion r q) pt with
          | None => None
          | Some c => Some (collapse (node_with r q c ne nw sw se f), true)
          end
      | Node _ _ _ _ _ _ =>
          match add c pt with
          | None => None
          | Some (c', false) => Some (node_with r q c' ne nw sw se f, false)
          | Some (c', true) => Some (collapse (node_with r q c' ne nw sw se f), true)
          end
      end
  end.

(** [QuadNode(r, True).remove(pt)]: removal inside a full node created by
    [subdivide], which subdivides again at every level. *)
Fixpoint remove_full (fuel : nat) (r : Region) (pt : Point)
    : option (slot * bool) :=
  match fuel with
  | O => None
  | S fuel' =>
      if isPoint r then Some (Empty, true) else
      let q := quadrant r pt in
      match remove_full fuel' (subregion r q) pt with
      | None => None
      | Some (c, updated) =>
          Some (prune (node_with r q c (leaf (subregion r NE))
                         (leaf (subregion r NW)) (leaf (subregion r SW))
                         (leaf (subregion r SE)) false), updated)
      end
  end.

(** [QuadNode.remove]; [self.children[q]] being [None] makes
    [self.children[q].remove(pt)] a fault. *)
Fixpoint remove (n : slot) (pt : Point) {struct n} : option (slot * bool) :=
  match n with
  | Empty => None
  | Node r ne nw sw se f =>
      if isPoint r then Some (Empty, true) else
      let q := quadrant r pt in
      if f then
        (* self.subdivide(); self.full = False *)
        match remove_full (rfuel (subregion r q)) (subregion r q) pt with
        | None => None
        | Some (c, updated) =>
            Some (prune (node_with r q c (leaf (subregion r NE))
                           (leaf (subregion r NW)) (leaf (subregion r SW))
                           (leaf (subregion r SE)) false), updated)
        end
      else
        let c := match q with NE => ne | NW => nw | SW => sw | SE => se end in
        match c with
        | Empty => None
        | Node _ _ _ _ _ _ =>
            match remove c pt with
            | None => None
            | Some (c', updated) =>
                Some (prune (node_with r q c' ne nw sw se false), updated)
            end
        end
  end.

(** The loop of [QuadTree.__contains__], from a node. *)
Fixpoint walk (n : slot) (pt : Point) : bool :=
  match n with
  | Empty => false
  | Node r ne nw sw se f =>
      if f then true
      else walk (match quadrant r pt with
                 | NE => ne | NW => nw | SW => sw | SE => se end) pt
  end.

(** [QuadNode.preorder]: the node, then the traversal of each present
    child in the order NE, NW, SW, SE. *)
Fixpoint preorder (n : slot) : list slot :=
  match n with
  | Empty => []
  | Node _ ne nw sw se _ =>
      n :: preorder ne ++ preorder nw ++ preorder sw ++ preorder se
  end.

(** [range(a, b)]. *)
Definition zrange (a b : Z) : list Z :=
  map (fun i => a + Z.of_nat i) (seq 0 (Z.to_nat (b - a))).

(** Every point of a region, [x] in the outer loop, [y] in the inner one. *)
Definition region_points (r : Region) : list Point :=
  flat_map (fun x => map (fun y => (x, y)) (zrange (y_min r) (y_max r)))
           (zrange (x_min r) (x_max r)).

(** What [QuadTree.__iter__] yields for one node of the traversal. *)
Definition node_points (n : slot) : list Point :=
  match n with
  | Empty => []
  | Node r _ _ _ _ f =>
      if f then region_points r
      else if isPoint r then [(x_min r, y_min r)] else []
  end.

(** [QuadTree.__iter__] from a node: the points each visited node yields. *)
Definition iter_points (n : slot) : list Point := flat_map node_points (preorder n).

(** ** The tree *)

(** [smaller2k], with the exact integer logarithm in place of
    [math.floor(math.log2(n))] / [math.ceil(math.log2(-n))]. *)
Definition smaller2k (n : Z) : Z :=
  if n =? 0 then 0
  else if n <? 0 then - 2 ^ Z.log2_up (- n)
  else 2 ^ Z.log2 n.

(** [larger2k], likewise. *)
Definition larger2k (n : Z) : Z :=
  if n =? 0 then 0
  else if n <? 0 then - 2 ^ Z.log2 (- n)
  else 2 ^ Z.log2_up n.

(** The canonical region computed by [QuadTree.__init__] from the requested
    one. *)
Definition canonical (req : Region) : Region :=
  let xmin2k := smaller2k (x_min req) in
  let ymin2k := smaller2k (y_min req) in
  let xmax2k := larger2k (x_max req) in
  let ymax2k := larger2k (y_max req) in
  let lo := Z.min xmin2k ymin2k in
  let hi := Z.max xmax2k ymax2k in
  mkRegion lo lo hi hi.

Record QuadTree := mkTree { root : slot; tregion : Region }.

(** [QuadTree(region)]. *)
Definition new_tree (req : Region) : QuadTree := mkTree Empty (canonical req).

(** [QuadTree.add]. *)
Definition tree_add (t : QuadTree) (pt : Point) : option (QuadTree * bool) :=
  if negb (containsPoint (tregion t) pt) then Some (t, false) else
  let rt := match root t with
            | Empty => Node (tregion t) Empty Empty Empty Empty false
            | n => n
            end in
  match add rt pt with
  | None => None
  | Some (rt', b) => Some (mkTree rt' (tregion t), b)
  end.

(** [QuadTree.remove]. *)
Definition tree_remove (t : QuadTree) (pt : Point) : option (QuadTree * bool) :=
  match root t with
  | Empty => Some (t, false)
  | rt =>
      if negb (containsPoint (tregion t) pt) then Some (t, false) else
      match remove rt pt with
      | None => None
      | Some (rt', updated) => Some (mkTree rt' (tregion t), updated)
      end
  end.

(** [QuadTree.__contains__]. *)
Definition tree_contains (t : QuadTree) (pt : Point) : bool :=
  if negb (containsPoint (tregion t) pt) then false else walk (root t) pt.

(** [list(QuadTree.__iter__())]. *)
Definition tree_iter (t : QuadTree) : list Point := iter_points (root t).

(** A sequence of public calls. *)
Inductive Op := OpAdd (p : Point) | OpRemove (p : Point).

Definition step (t : QuadTree) (o : Op) : option QuadTree :=
  match o with
  | OpAdd p => option_map fst (tree_add t p)
  | OpRemove p => option_map fst (tree_remove t p)
  end.

Fixpoint run (t : QuadTree) (ops : list Op) : option QuadTree :=
  match ops with
  | [] => Some t
  | o :: ops' => match step t o with None => None | Some t' => run t' ops' end
  end.

(** The tree states reachable from a fresh tree by calls that return. *)
Inductive reachable : QuadTree -> Prop :=
| reach_new req : reachable (new_tree req)
| reach_add t p t' b : reachable t -> tree_add t p = Some (t', b) -> reachable t'
| reach_remove t p t' b :
    reachable t -> tree_remove t p = Some (t', b) -> reachable t'.

(** The compression invariant: a full node has no children. *)
Fixpoint compressed (n : slot) : bool :=
  match n with
  | Empty => true
  | Node _ ne nw sw se f =>
      (if f then childrenNull ne nw sw se else true)
      && compressed ne && compressed nw && compressed sw && compressed se
  end.

(** The side of a quadrant, as [QuadNode.quadrant] decides it. *)
Definition east (q : Quadrant) : bool :=
  match q with NE | SE => true | NW | SW => false end.

Definition north (q : Quadrant) : bool :=
  match q with NE | NW => true | SW | SE => false end.

Definition qeqb (q q' : Quadrant) : bool :=
  match q, q' with
  | NE, NE | NW, NW | SW, SW | SE, SE => true
  | _, _ => false
  end.

Definition peqb (p p' : Point) : bool := (fst p =? fst p') && (snd p =? snd p').

(** Two-dimensional size used as the termination measure. *)
Definition extent (r : Region) : Z := x_max r - x_min r + (y_max r - y_min r).

(** ** Geometry of [quadrant] and [subregion] *)

Ltac div2 e :=
  pose proof (Z.div_mod e 2 ltac:(lia));
  pose proof (Z.mod_pos_bound e 2 ltac:(lia)).

Ltac zcase :=
  repeat match goal with
  | |- context [?a <? ?b] => destruct (Z.ltb_spec a b)
  | |- context [?a >=? ?b] => destruct (Z.geb_spec a b)
  | |- context [?a =? ?b] => destruct (Z.eqb_spec a b)
  | H : context [?a <? ?b] |- _ => destruct (Z.ltb_spec a b)
  | H : context [?a >=? ?b] |- _ => destruct (Z.geb_spec a b)
  | H : context [?a =? ?b] |- _ => destruct (Z.eqb_spec a b)
  end.

Lemma containsPoint_iff r p :
  containsPoint r p = true <->
  x_min r <= fst p < x_max r /\ y_min r <= snd p < y_max r.
Proof.
  unfold containsPoint; zcase; split; intros; try lia; discriminate.
Qed.

Lemma peqb_iff p p' : peqb p p' = true <-> p = p'.
Proof.
  destruct p as [x y], p' as [x' y']; unfold peqb; simpl.
  rewrite andb_true_iff, !Z.eqb_eq; split; [intros [-> ->] | intros [=]]; auto.
Qed.

Lemma peqb_refl p : peqb p p = true.
Proof. apply peqb_iff; reflexivity. Qed.

Lemma qeqb_iff q q' : qeqb q q' = true <-> q = q'.
Proof. destruct q, q'; simpl; split; congruence. Qed.

Ltac unfold_geo :=
  unfold quadrant, subregion, origin in *; simpl in *.

(** A point of [r] lies in the subregion of its quadrant. *)
Lemma sub_of_quadrant r p :
  containsPoint r p = true ->
  containsPoint (subregion r (quadrant r p)) p = true.
Proof.
  rewrite !containsPoint_iff; destruct p as [x y]; unfold_geo.
  div2 (x_max r - x_min r); div2 (y_max r - y_min r).
  zcase; simpl; lia.
Qed.

(** A point of a subregion lies in the region, in that quadrant. *)
Lemma quadrant_of_sub r q p :
  containsPoint (subregion r q) p = true ->
  containsPoint r p = true /\ quadrant r p = q.
Proof.
  rewrite !containsPoint_iff; destruct p as [x y]; unfold_geo.
  div2 (x_max r - x_min r); div2 (y_max r - y_min r).
  destruct q; simpl; intros; zcase; split; try lia; congruence.
Qed.

(** Going down to the quadrant of a point of [r] shrinks the extent,
    unless [r] is a point region. *)
Lemma sub_shrinks r p :
  containsPoint r p = true -> isPoint r = false ->
  0 < extent (subregion r (quadrant r p)) < extent r.
Proof.
  intros Hin Hp.
  pose proof (sub_of_quadrant r p Hin) as Hs.
  revert Hin Hs Hp; rewrite !containsPoint_iff; unfold isPoint, extent.
  destruct p as [x y]; unfold_geo.
  intros; rewrite andb_false_iff, !Z.eqb_neq in Hp; zcase; simpl in *;
  div2 (x_max r - x_min r); div2 (y_max r - y_min r); lia.
Qed.

Lemma extent_pos r p : containsPoint r p = true -> 2 <= extent r.
Proof. rewrite containsPoint_iff; unfold extent; lia. Qed.

(** In a point region there is one point. *)
Lemma point_region_unique r p p' :
  isPoint r = true -> containsPoint r p = true -> containsPoint r p' = true ->
  p = p'.
Proof.
  unfold isPoint; rewrite !containsPoint_iff, andb_true_iff, !Z.eqb_eq.
  destruct p, p'; simpl; intros; f_equal; lia.
Qed.

(** ** Well-formed nodes

    Every present child sits over the subregion of its slot, as
    [QuadNode.add] and [QuadNode.subdivide] create them. *)

Definition at_region (s : slot) (r : Region) : Prop :=
  match s with Empty => True | Node r' _ _ _ _ _ => r' = r end.

Fixpoint wf (n : slot) : Prop :=
  match n with
  | Empty => True
  | Node r ne nw sw se _ =>
      at_region ne (subregion r NE) /\ at_region nw (subregion r NW) /\
      at_region sw (subregion r SW) /\ at_region se (subregion r SE) /\
      wf ne /\ wf nw /\ wf sw /\ wf se
  end.

(** The children after [self.children[q] = c], slot by slot. *)
Definition upd (q : Quadrant) (c ne nw sw se : slot) (q' : Quadrant) : slot :=
  if qeqb q q' then c else pick q' ne nw sw se.

Lemma walk_Node r ne nw sw se f p :
  walk (Node r ne nw sw se f) p = f || walk (pick (quadrant r p) ne nw sw se) p.
Proof. simpl; destruct f; reflexivity. Qed.

Lemma node_with_upd r q c ne nw sw se f :
  node_with r q c ne nw sw se f =
  Node r (upd q c ne nw sw se NE) (upd q c ne nw sw se NW)
         (upd q c ne nw sw se SW) (upd q c ne nw sw se SE) f.
Proof. destruct q; reflexivity. Qed.

Lemma pick_gen (g : Quadrant -> slot) q : pick q (g NE) (g NW) (g SW) (g SE) = g q.
Proof. destruct q; reflexivity. Qed.

Lemma wf_Node r ne nw sw se f :
  wf (Node r ne nw sw se f) <->
  forall q, at_region (pick q ne nw sw se) (subregion r q) /\ wf (pick q ne nw sw se).
Proof.
  simpl; split.
  - intros (? & ? & ? & ? & ? & ? & ? & ?) q; destruct q; simpl; auto.
  - intros H; pose proof (H NE); pose proof (H NW); pose proof (H SW);
      pose proof (H SE); simpl in *; intuition.
Qed.

Lemma childrenFull_iff ne nw sw se :
  childrenFull ne nw sw se = true <-> forall q, is_full (pick q ne nw sw se) = true.
Proof.
  unfold childrenFull; rewrite !andb_true_iff; split.
  - intros (((? & ?) & ?) & ?) q; destruct q; assumption.
  - intros H; pose proof (H NE); pose proof (H NW); pose proof (H SW);
      pose proof (H SE); simpl in *; intuition.
Qed.

Lemma childrenNull_iff ne nw sw se :
  childrenNull ne nw sw se = true <-> forall q, pick q ne nw sw se = Empty.
Proof.
  unfold childrenNull; rewrite !andb_true_iff; split.
  - intros (((? & ?) & ?) & ?) q; destruct q; simpl;
      match goal with |- ?s = Empty => destruct s; simpl in *; congruence end.
  - intros H; pose proof (H NE); pose proof (H NW); pose proof (H SW);
      pose proof (H SE); simpl in *; subst; auto.
Qed.

Lemma walk_full n p : is_full n = true -> walk n p = true.
Proof. destruct n; simpl; [discriminate | intros ->; reflexivity]. Qed.

Lemma wf_leaf r : wf (leaf r).
Proof. simpl; tauto. Qed.

(** A point of [r] in a quadrant other than that of [pt] is not [pt]. *)
Lemma other_quadrant r p pt :
  quadrant r p <> quadrant r pt -> peqb p pt = false.
Proof.
  intros H; destruct (peqb p pt) eqn:E; [apply peqb_iff in E; subst|]; congruence.
Qed.

Lemma in_sub r p q :
  containsPoint r p = true -> quadrant r p = q -> containsPoint (subregion r q) p = true.
Proof. intros H <-; apply sub_of_quadrant, H. Qed.

(** What [QuadNode.add] guarantees for the node it is called on
    (or the fresh node it creates, when [n] is [Empty]). *)
Definition add_post (n n' : slot) (r : Region) (pt : Point) : Prop :=
  wf n' /\ at_region n' r /\ n' <> Empty /\
  forall p, containsPoint r p = true -> walk n' p = walk n p || peqb p pt.

Lemma add_post_leaf r pt :
  isPoint r = true -> containsPoint r pt = true -> add_post Empty (leaf r) r pt.
Proof.
  intros Hp Hin; refine (conj (wf_leaf r) (conj eq_refl (conj _ _))); [discriminate|].
  intros p Hp'; rewrite (point_region_unique r p pt Hp Hp' Hin), peqb_refl.
  reflexivity.
Qed.

(** One level of [QuadNode.add]: the child of the point's quadrant has been
    replaced, then the node collapses if all four children are full. *)
Lemma add_post_step r ne nw sw se f pt c' :
  wf (Node r ne nw sw se f) -> containsPoint r pt = true ->
  add_post (pick (quadrant r pt) ne nw sw se) c' (subregion r (quadrant r pt)) pt ->
  add_post (Node r ne nw sw se f)
           (collapse (node_with r (quadrant r pt) c' ne nw sw se f)) r pt.
Proof.
  intros Hwf Hin (Hwf' & Hat' & Hne' & Hw').
  rewrite node_with_upd; simpl collapse.
  set (g := upd (quadrant r pt) c' ne nw sw se).
  assert (Hg : forall q, g q = if qeqb (quadrant r pt) q then c'
                              else pick q ne nw sw se) by reflexivity.
  rewrite wf_Node in Hwf.
  destruct (childrenFull (g NE) (g NW) (g SW) (g SE)) eqn:Hfull.
  - rewrite childrenFull_iff in Hfull.
    refine (conj (wf_leaf r) (conj eq_refl (conj _ _))); [discriminate|].
    intros p Hp; unfold leaf; rewrite !walk_Node; cbn [orb].
    destruct f; [reflexivity|]; cbn [orb].
    specialize (Hfull (quadrant r p)); rewrite pick_gen, Hg in Hfull.
    destruct (qeqb (quadrant r pt) (quadrant r p)) eqn:Eq.
    + apply qeqb_iff in Eq; rewrite <- Eq.
      rewrite <- (Hw' p) by (apply in_sub; congruence).
      rewrite walk_full; auto.
    + rewrite walk_full; auto.
  - refine (conj _ (conj eq_refl (conj _ _))).
    + apply wf_Node; intros q; rewrite pick_gen, Hg.
      destruct (qeqb (quadrant r pt) q) eqn:Eq; [apply qeqb_iff in Eq; subst; auto|].
      apply Hwf.
    + discriminate.
    + intros p Hp; rewrite !walk_Node, pick_gen, Hg.
      destruct f; [reflexivity|]; cbn [orb].
      destruct (qeqb (quadrant r pt) (quadrant r p)) eqn:Eq.
      * apply qeqb_iff in Eq; rewrite Hw' by (apply in_sub; congruence).
        rewrite Eq; reflexivity.
      * rewrite (other_quadrant r p pt), orb_false_r; [reflexivity|].
        intros E; rewrite E, (proj2 (qeqb_iff _ _) eq_refl) in Eq; discriminate.
Qed.

Lemma wf_fresh r : wf (Node r Empty Empty Empty Empty false).
Proof. simpl; tauto. Qed.

Lemma walk_fresh r p : walk (Node r Empty Empty Empty Empty false) p = false.
Proof. simpl; destruct (quadrant r p); reflexivity. Qed.

Lemma pick_Empty q : pick q Empty Empty Empty Empty = Empty.
Proof. destruct q; reflexivity. Qed.

(** [QuadNode(r).add(pt)] builds the chain of nodes down to [pt]. *)
Lemma add_fresh_spec fuel : forall r pt,
  containsPoint r pt = true -> isPoint r = false -> extent r <= Z.of_nat fuel ->
  exists c, add_fresh fuel r pt = Some (c, true) /\ add_post Empty c r pt.
Proof.
  induction fuel as [|fuel IH]; intros r pt Hin Hnp Hf.
  - pose proof (extent_pos r pt Hin); simpl in Hf; lia.
  - cbn [add_fresh].
    pose proof (sub_of_quadrant r pt Hin) as Hsr.
    assert (Hch : exists c,
      (if isPoint (subregion r (quadrant r pt)) then
         Some (leaf (subregion r (quadrant r pt)))
       else option_map fst (add_fresh fuel (subregion r (quadrant r pt)) pt)) = Some c
      /\ add_post Empty c (subregion r (quadrant r pt)) pt).
    { destruct (isPoint (subregion r (quadrant r pt))) eqn:Hp.
      - eexists; split; [reflexivity|]; apply add_post_leaf; auto.
      - destruct (IH (subregion r (quadrant r pt)) pt Hsr Hp) as (c & E & Hc).
        + pose proof (sub_shrinks r pt Hin Hnp); lia.
        + exists c; rewrite E; auto. }
    destruct Hch as (c & -> & Hc).
    eexists; split; [reflexivity|].
    destruct (add_post_step r Empty Empty Empty Empty false pt c (wf_fresh r) Hin)
      as (? & ? & ? & Hw).
    { rewrite pick_Empty; exact Hc. }
    repeat (split; [assumption|]).
    intros p Hp; rewrite Hw, walk_fresh by exact Hp; reflexivity.
Qed.

Lemma new_child_spec sr pt :
  containsPoint sr pt = true ->
  exists c, new_child sr pt = Some c /\ add_post Empty c sr pt.
Proof.
  intros Hin; unfold new_child.
  destruct (isPoint sr) eqn:Hp.
  - eexists; split; [reflexivity|]; apply add_post_leaf; auto.
  - destruct (add_fresh_spec (rfuel sr) sr pt Hin Hp) as (c & E & Hc).
    + change (rfuel sr) with (Z.to_nat (extent sr)).
      pose proof (extent_pos sr pt Hin); rewrite Z2Nat.id; lia.
    + exists c; rewrite E; auto.
Qed.

Lemma add_Node r ne nw sw se f pt :
  add (Node r ne nw sw se f) pt =
  match pick (quadrant r pt) ne nw sw se with
  | Empty =>
      match new_child (subregion r (quadrant r pt)) pt with
      | None => None
      | Some c => Some (collapse (node_with r (quadrant r pt) c ne nw sw se f), true)
      end
  | Node _ _ _ _ _ _ =>
      match add (pick (quadrant r pt) ne nw sw se) pt with
      | None => None
      | Some (c', false) => Some (node_with r (quadrant r pt) c' ne nw sw se f, false)
      | Some (c', true) =>
          Some (collapse (node_with r (quadrant r pt) c' ne nw sw se f), true)
      end
  end.
Proof. reflexivity. Qed.

(** [QuadNode.add] on a well-formed node and a point of its region
    succeeds with [True]; the node then holds exactly one more point. *)
Lemma add_spec n : forall r pt,
  wf n -> at_region n r -> n <> Empty -> containsPoint r pt = true ->
  exists n', add n pt = Some (n', true) /\ add_post n n' r pt.
Proof.
  induction n as [|r0 a IHa b IHb c IHc d IHd f]; intros r pt Hwf Hat Hne Hin;
    [congruence|].
  simpl in Hat; subst r0.
  assert (IH : forall q r' pt', wf (pick q a b c d) ->
            at_region (pick q a b c d) r' -> pick q a b c d <> Empty ->
            containsPoint r' pt' = true ->
            exists n', add (pick q a b c d) pt' = Some (n', true) /\
                       add_post (pick q a b c d) n' r' pt')
    by (destruct q; simpl; auto).
  pose proof (sub_of_quadrant r pt Hin) as Hsr.
  pose proof (proj1 (wf_Node r a b c d f) Hwf (quadrant r pt)) as [Hat' Hwf'].
  rewrite add_Node.
  destruct (pick (quadrant r pt) a b c d) eqn:Ech.
  - destruct (new_child_spec _ _ Hsr) as (c0 & -> & Hc0).
    eexists; split; [reflexivity|].
    apply add_post_step; auto; rewrite Ech; exact Hc0.
  - rewrite <- Ech in Hat', Hwf' |- *.
    destruct (IH (quadrant r pt) _ pt Hwf' Hat') as (n' & -> & Hn');
      [rewrite Ech; discriminate | exact Hsr |].
    eexists; split; [reflexivity|].
    apply add_post_step; auto.
Qed.

(** What [QuadNode.remove] guarantees: the returned slot (the node or
    [None]) holds the points of [n] except [pt]. *)
Definition rem_post (n s : slot) (r : Region) (pt : Point) : Prop :=
  wf s /\ at_region s r /\
  forall p, containsPoint r p = true -> walk s p = walk n p && negb (peqb p pt).

(** [self.subdivide()] of a full node: four full children. *)
Definition subdivided (r : Region) : slot :=
  Node r (leaf (subregion r NE)) (leaf (subregion r NW))
         (leaf (subregion r SW)) (leaf (subregion r SE)) false.

Lemma wf_subdivided r : wf (subdivided r).
Proof. simpl; repeat split; tauto. Qed.

Lemma walk_subdivided r p : walk (subdivided r) p = true.
Proof. simpl; destruct (quadrant r p); reflexivity. Qed.

Lemma pick_subdivided q r :
  pick q (leaf (subregion r NE)) (leaf (subregion r NW))
         (leaf (subregion r SW)) (leaf (subregion r SE)) = leaf (subregion r q).
Proof. destruct q; reflexivity. Qed.

(** One level of [QuadNode.remove] below a non-full node. *)
Lemma rem_post_step r ne nw sw se pt c' :
  wf (Node r ne nw sw se false) -> containsPoint r pt = true ->
  rem_post (pick (quadrant r pt) ne nw sw se) c' (subregion r (quadrant r pt)) pt ->
  rem_post (Node r ne nw sw se false)
           (prune (node_with r (quadrant r pt) c' ne nw sw se false)) r pt.
Proof.
  intros Hwf Hin (Hwf' & Hat' & Hw').
  rewrite node_with_upd; simpl prune.
  set (g := upd (quadrant r pt) c' ne nw sw se).
  assert (Hg : forall q, g q = if qeqb (quadrant r pt) q then c'
                              else pick q ne nw sw se) by reflexivity.
  rewrite wf_Node in Hwf.
  destruct (childrenNull (g NE) (g NW) (g SW) (g SE)) eqn:Hnull.
  - rewrite childrenNull_iff in Hnull.
    refine (conj I (conj I _)); intros p Hp.
    rewrite walk_Node; cbn [orb walk].
    specialize (Hnull (quadrant r p)); rewrite pick_gen, Hg in Hnull.
    destruct (qeqb (quadrant r pt) (quadrant r p)) eqn:Eq.
    + apply qeqb_iff in Eq; subst c'.
      specialize (Hw' p ltac:(apply in_sub; congruence)).
      rewrite <- Eq; simpl in Hw'; rewrite <- Hw'; reflexivity.
    + rewrite Hnull; reflexivity.
  - refine (conj _ (conj eq_refl _)).
    + apply wf_Node; intros q; rewrite pick_gen, Hg.
      destruct (qeqb (quadrant r pt) q) eqn:Eq; [apply qeqb_iff in Eq; subst; auto|].
      apply Hwf.
    + intros p Hp; rewrite !walk_Node, pick_gen, Hg; cbn [orb].
      destruct (qeqb (quadrant r pt) (quadrant r p)) eqn:Eq.
      * apply qeqb_iff in Eq; rewrite Hw' by (apply in_sub; congruence).
        rewrite Eq; reflexivity.
      * rewrite (other_quadrant r p pt), andb_true_r; [reflexivity|].
        intros E; rewrite E, (proj2 (qeqb_iff _ _) eq_refl) in Eq; discriminate.
Qed.

(** Removal inside a full node of a region holding [pt]. *)
Lemma rem_post_subdivided r pt s :
  containsPoint r pt = true ->
  rem_post (leaf (subregion r (quadrant r pt))) s (subregion r (quadrant r pt)) pt ->
  forall ne nw sw se,
  rem_post (Node r ne nw sw se true)
    (prune (node_with r (quadrant r pt) s (leaf (subregion r NE))
              (leaf (subregion r NW)) (leaf (subregion r SW))
              (leaf (subregion r SE)) false)) r pt /\
  rem_post (leaf r)
    (prune (node_with r (quadrant r pt) s (leaf (subregion r NE))
              (leaf (subregion r NW)) (leaf (subregion r SW))
              (leaf (subregion r SE)) false)) r pt.
Proof.
  intros Hin Hs ne nw sw se.
  destruct (rem_post_step r _ _ _ _ pt s (wf_subdivided r) Hin) as (Hw & Ha & Hp).
  { rewrite pick_subdivided; exact Hs. }
  change (Node r (leaf (subregion r NE)) (leaf (subregion r NW))
            (leaf (subregion r SW)) (leaf (subregion r SE)) false)
    with (subdivided r) in Hp.
  split; (split; [exact Hw | split; [exact Ha |]]); intros p Hp';
    rewrite Hp, (walk_subdivided r p) by exact Hp'; reflexivity.
Qed.

(** [QuadNode(r, True).remove(pt)] for a point [pt] of [r]. *)
Lemma remove_full_spec fuel : forall r pt,
  containsPoint r pt = true -> extent r <= Z.of_nat fuel ->
  exists s, remove_full fuel r pt = Some (s, true) /\ rem_post (leaf r) s r pt.
Proof.
  induction fuel as [|fuel IH]; intros r pt Hin Hf.
  - pose proof (extent_pos r pt Hin); simpl in Hf; lia.
  - cbn [remove_full].
    destruct (isPoint r) eqn:Hp.
    + eexists; split; [reflexivity|].
      refine (conj I (conj I _)); intros p Hp'.
      rewrite (point_region_unique r p pt Hp Hp' Hin), peqb_refl; reflexivity.
    + pose proof (sub_shrinks r pt Hin Hp).
      destruct (IH (subregion r (quadrant r pt)) pt) as (s & -> & Hs);
        [apply sub_of_quadrant; exact Hin | lia |].
      eexists; split; [reflexivity|].
      apply (rem_post_subdivided r pt s Hin Hs Empty Empty Empty Empty).
Qed.

Lemma remove_Node r ne nw sw se f pt :
  remove (Node r ne nw sw se f) pt =
  if isPoint r then Some (Empty, true) else
  if f then
    match remove_full (rfuel (subregion r (quadrant r pt)))
            (subregion r (quadrant r pt)) pt with
    | None => None
    | Some (c, updated) =>
        Some (prune (node_with r (quadrant r pt) c (leaf (subregion r NE))
                       (leaf (subregion r NW)) (leaf (subregion r SW))
                       (leaf (subregion r SE)) false), updated)
    end
  else
    match pick (quadrant r pt) ne nw sw se with
    | Empty => None
    | Node _ _ _ _ _ _ =>
        match remove (pick (quadrant r pt) ne nw sw se) pt with
        | None => None
        | Some (c', updated) =>
            Some (prune (node_with r (quadrant r pt) c' ne nw sw se false), updated)
        end
    end.
Proof. reflexivity. Qed.

(** [QuadNode.remove] of a point the node holds succeeds with [True] and
    removes exactly that point. *)
Lemma remove_spec n : forall r pt,
  wf n -> at_region n r -> n <> Empty -> containsPoint r pt = true ->
  walk n pt = true ->
  exists s, remove n pt = Some (s, true) /\ rem_post n s r pt.
Proof.
  induction n as [|r0 a IHa b IHb c IHc d IHd f]; intros r pt Hwf Hat Hne Hin Hw;
    [congruence|].
  simpl in Hat; subst r0.
  assert (IH : forall q r' pt', wf (pick q a b c d) ->
            at_region (pick q a b c d) r' -> pick q a b c d <> Empty ->
            containsPoint r' pt' = true -> walk (pick q a b c d) pt' = true ->
            exists s, remove (pick q a b c d) pt' = Some (s, true) /\
                      rem_post (pick q a b c d) s r' pt')
    by (destruct q; simpl; auto).
  pose proof (sub_of_quadrant r pt Hin) as Hsr.
  rewrite remove_Node.
  destruct (isPoint r) eqn:Hp.
  - eexists; split; [reflexivity|].
    refine (conj I (conj I _)); intros p Hp'.
    rewrite (point_region_unique r p pt Hp Hp' Hin), peqb_refl, andb_false_r.
    reflexivity.
  - destruct f.
    + destruct (remove_full_spec (rfuel (subregion r (quadrant r pt)))
                  (subregion r (quadrant r pt)) pt Hsr) as (s & -> & Hs).
      { change (rfuel ?x) with (Z.to_nat (extent x)).
        pose proof (extent_pos _ pt Hsr); rewrite Z2Nat.id; lia. }
      eexists; split; [reflexivity|].
      apply (rem_post_subdivided r pt s Hin Hs a b c d).
    + pose proof (proj1 (wf_Node r a b c d false) Hwf (quadrant r pt)) as [Hat' Hwf'].
      rewrite walk_Node in Hw; cbn [orb] in Hw.
      destruct (pick (quadrant r pt) a b c d) eqn:Ech; [discriminate|].
      rewrite <- Ech in Hat', Hwf', Hw |- *.
      destruct (IH (quadrant r pt) _ pt Hwf' Hat') as (s & -> & Hs);
        [rewrite Ech; discriminate | exact Hsr | exact Hw |].
      eexists; split; [reflexivity|].
      apply rem_post_step; auto.
Qed.

(** Removal keeps nodes well formed whenever it returns. *)
Lemma wf_prune_with r q c' ne nw sw se f f' :
  wf (Node r ne nw sw se f) -> wf c' -> at_region c' (subregion r q) ->
  wf (prune (node_with r q c' ne nw sw se f')) /\
  at_region (prune (node_with r q c' ne nw sw se f')) r.
Proof.
  intros Hwf Hc Ha; rewrite wf_Node in Hwf.
  assert (Hn : wf (node_with r q c' ne nw sw se f')).
  { rewrite node_with_upd, wf_Node; intros q0; rewrite pick_gen; unfold upd.
    destruct (qeqb q q0) eqn:E; [apply qeqb_iff in E; subst; auto | apply Hwf]. }
  rewrite node_with_upd in Hn |- *; simpl prune.
  destruct childrenNull; simpl; auto.
Qed.

Lemma remove_full_wf fuel : forall r pt s b,
  remove_full fuel r pt = Some (s, b) -> wf s /\ at_region s r.
Proof.
  induction fuel as [|fuel IH]; intros r pt s b H; [discriminate|].
  cbn [remove_full] in H.
  destruct (isPoint r); [injection H as <- _; simpl; auto|].
  destruct (remove_full fuel (subregion r (quadrant r pt)) pt) as [[c u]|] eqn:E;
    [|discriminate].
  injection H as <- _.
  destruct (IH _ _ _ _ E).
  apply (wf_prune_with r _ c _ _ _ _ false); auto.
  apply (wf_subdivided r).
Qed.

Lemma remove_wf n : forall r pt s b,
  wf n -> at_region n r -> remove n pt = Some (s, b) -> wf s /\ at_region s r.
Proof.
  induction n as [|r0 a IHa b0 IHb c IHc d IHd f]; intros r pt s b Hwf Hat H;
    [discriminate|].
  simpl in Hat; subst r0.
  assert (IH : forall q r' s' b', wf (pick q a b0 c d) ->
            at_region (pick q a b0 c d) r' ->
            remove (pick q a b0 c d) pt = Some (s', b') -> wf s' /\ at_region s' r')
    by (destruct q; simpl; eauto).
  rewrite remove_Node in H.
  destruct (isPoint r); [injection H as <- _; simpl; auto|].
  destruct f.
  - destruct (remove_full _ _ pt) as [[c0 u]|] eqn:E; [|discriminate].
    injection H as <- _.
    destruct (remove_full_wf _ _ _ _ _ E).
    apply (wf_prune_with r _ c0 _ _ _ _ false); auto.
    apply (wf_subdivided r).
  - pose proof (proj1 (wf_Node r a b0 c d false) Hwf (quadrant r pt)) as [Hat' Hwf'].
    destruct (pick (quadrant r pt) a b0 c d) eqn:Ech; [discriminate|].
    rewrite <- Ech in Hat', Hwf', H.
    destruct (remove (pick (quadrant r pt) a b0 c d) pt) as [[c0 u]|] eqn:E;
      [|discriminate].
    injection H as <- _.
    destruct (IH _ _ _ _ Hwf' Hat' E).
    apply (wf_prune_with r _ c0 _ _ _ _ false); auto.
Qed.

(** The tree invariant: the root is well formed over the canonical region. *)
Definition wf_tree (t : QuadTree) : Prop := wf (root t) /\ at_region (root t) (tregion t).

(** [QuadTree.add] of a point of the region: [True], one point more. *)
Lemma tree_add_spec t pt :
  wf_tree t -> containsPoint (tregion t) pt = true ->
  exists t', tree_add t pt = Some (t', true) /\ wf_tree t' /\
    tregion t' = tregion t /\
    forall p, containsPoint (tregion t) p = true ->
      walk (root t') p = walk (root t) p || peqb p pt.
Proof.
  intros [Hwf Hat] Hin; unfold tree_add; rewrite Hin; cbn [negb].
  destruct (root t) as [|r a b c d f] eqn:Er.
  - destruct (add_spec (Node (tregion t) Empty Empty Empty Empty false) (tregion t) pt
                (wf_fresh _) eq_refl ltac:(discriminate) Hin)
      as (n' & -> & Hw & Ha & _ & Hp).
    eexists; split; [reflexivity|]; simpl.
    split; [split; auto|]; split; [reflexivity|].
    intros p Hp'; rewrite Hp, walk_fresh by exact Hp'; reflexivity.
  - destruct (add_spec (Node r a b c d f) (tregion t) pt Hwf Hat ltac:(discriminate) Hin)
      as (n' & -> & Hw & Ha & _ & Hp).
    eexists; split; [reflexivity|]; simpl.
    split; [split; auto|]; split; [reflexivity|].
    exact Hp.
Qed.

Lemma tree_add_wf t pt t' b :
  wf_tree t -> tree_add t pt = Some (t', b) -> wf_tree t' /\ tregion t' = tregion t.
Proof.
  intros Hwf H.
  destruct (containsPoint (tregion t) pt) eqn:Hin.
  - destruct (tree_add_spec t pt Hwf Hin) as (t1 & E & ? & ? & _).
    rewrite E in H; injection H as <- _; auto.
  - unfold tree_add in H; rewrite Hin in H; injection H as <- _; auto.
Qed.

Lemma tree_remove_wf t pt t' b :
  wf_tree t -> tree_remove t pt = Some (t', b) -> wf_tree t' /\ tregion t' = tregion t.
Proof.
  intros [Hwf Hat] H; unfold tree_remove in H.
  destruct (root t) as [|r a b0 c d f] eqn:Er;
    [injection H as <- _; split; [split; rewrite Er; simpl; auto | auto]|].
  destruct (negb (containsPoint (tregion t) pt));
    [injection H as <- _; split; [split; rewrite Er; auto | auto]|].
  destruct (remove _ pt) as [[s u]|] eqn:E; [|discriminate].
  injection H as <- _.
  destruct (remove_wf _ _ _ _ _ Hwf Hat E); split; [split|]; auto.
Qed.

Lemma reachable_wf t : reachable t -> wf_tree t.
Proof.
  induction 1 as [req | t p t' b _ IH H | t p t' b _ IH H].
  - split; simpl; auto.
  - apply (tree_add_wf t p t' b IH H).
  - apply (tree_remove_wf t p t' b IH H).
Qed.

Lemma tree_contains_walk t p :
  tree_contains t p = containsPoint (tregion t) p && walk (root t) p.
Proof. unfold tree_contains; destruct (containsPoint (tregion t) p); reflexivity. Qed.

(** Further [QuadTree.add] calls keep every point already present. *)
Lemma adds_keep t p ps :
  wf_tree t -> tree_contains t p = true ->
  exists tn, run t (map OpAdd ps) = Some tn /\ tree_contains tn p = true.
Proof.
  revert t; induction ps as [|q ps IH]; intros t Hwf Hp.
  - exists t; split; auto.
  - cbn [map run step].
    destruct (containsPoint (tregion t) q) eqn:Hq.
    + destruct (tree_add_spec t q Hwf Hq) as (t1 & -> & Hwf1 & Hr1 & Hw1).
      apply IH; auto.
      rewrite tree_contains_walk in Hp |- *; apply andb_true_iff in Hp as [Hin Hw].
      cbn [fst]; rewrite Hr1, Hin, Hw1, Hw by exact Hin; reflexivity.
    + unfold tree_add; rewrite Hq; cbn [negb option_map fst].
      apply IH; auto.
Qed.

(** Concrete trees over [R8 = (0, 0, 8, 8)]. *)
Definition R8 : Region := mkRegion 0 0 8 8.

Definition after (t : QuadTree) (ops : list Op) : QuadTree :=
  match run t ops with Some t' => t' | None => t end.

Definition t_one : QuadTree := after (new_tree R8) [OpAdd (0, 0)].

Definition t_two : QuadTree := after (new_tree R8) [OpAdd (0, 0); OpAdd (0, 0)].

Lemma t_one_reachable : reachable t_one.
Proof.
  apply (reach_add (new_tree R8) (0, 0) t_one true); [constructor|].
  vm_compute; reflexivity.
Defined.

(** ** The claims *)

(** C8: for a point [p] of a node's region, [quadrant] puts it east iff
    [p.x >= origin.x] and north iff [p.y >= origin.y] (ties go east and
    north); the subregion of its quadrant holds it; every point of a
    subregion lies in the region and in that quadrant and every point of
    the region lies in the subregion of its quadrant (the four subregions
    partition the region); and the origin is a corner of each of them. *)
Theorem quadrant_subregion_partition r p :
  containsPoint r p = true ->
  east (quadrant r p) = (fst p >=? fst (origin r)) /\
  north (quadrant r p) = (snd p >=? snd (origin r)) /\
  containsPoint (subregion r (quadrant r p)) p = true /\
  (forall q p', containsPoint (subregion r q) p' = true ->
     containsPoint r p' = true /\ quadrant r p' = q) /\
  (forall p', containsPoint r p' = true ->
     containsPoint (subregion r (quadrant r p')) p' = true) /\
  (let (ox, oy) := origin r in
   x_min (subregion r NE) = ox /\ y_min (subregion r NE) = oy /\
   x_max (subregion r NW) = ox /\ y_min (subregion r NW) = oy /\
   x_max (subregion r SW) = ox /\ y_max (subregion r SW) = oy /\
   x_min (subregion r SE) = ox /\ y_max (subregion r SE) = oy).
Proof.
  intros Hin.
  split; [unfold quadrant; destruct (_ >=? _), (_ >=? _); reflexivity|].
  split; [unfold quadrant; destruct (_ >=? _), (_ >=? _); reflexivity|].
  split; [apply sub_of_quadrant; exact Hin|].
  split; [apply quadrant_of_sub|].
  split; [apply sub_of_quadrant|].
  unfold subregion; destruct (origin r); repeat split.
Qed.

Lemma quadrant_subregion_partition_witness :
  containsPoint R8 (4, 3) = true /\ quadrant R8 (4, 3) = SE /\
  containsPoint (subregion R8 (quadrant R8 (4, 3))) (4, 3) = true.
Proof.
  assert (H : containsPoint R8 (4, 3) = true) by reflexivity.
  destruct (quadrant_subregion_partition R8 (4, 3) H) as (_ & _ & H3 & _).
  split; [exact H | split; [reflexivity | exact H3]].
Defined.

(** C9: in every reachable tree, [QuadTree.add] of a point of the canonical
    region returns [True], also when the point is already present. *)
Theorem add_in_region_true t p :
  reachable t -> containsPoint (tregion t) p = true ->
  exists t', tree_add t p = Some (t', true).
Proof.
  intros Hr Hin.
  destruct (tree_add_spec t p (reachable_wf t Hr) Hin) as (t' & E & _).
  exists t'; exact E.
Qed.

Lemma add_in_region_true_witness :
  reachable t_one /\ containsPoint (tregion t_one) (0, 0) = true /\
  tree_contains t_one (0, 0) = true /\
  exists t', tree_add t_one (0, 0) = Some (t', true).
Proof.
  assert (H : containsPoint (tregion t_one) (0, 0) = true) by (vm_compute; reflexivity).
  split; [exact t_one_reachable|]; split; [exact H|].
  split; [vm_compute; reflexivity|].
  exact (add_in_region_true t_one (0, 0) t_one_reachable H).
Defined.

(** C5: [QuadTree.add] of a point of the canonical region into a new tree
    makes [contains] true, and it stays true through any further sequence
    of [add] calls. *)
Theorem contains_after_add req p :
  containsPoint (canonical req) p = true ->
  exists t1, tree_add (new_tree req) p = Some (t1, true) /\
    tree_contains t1 p = true /\
    forall ps, exists tn, run t1 (map OpAdd ps) = Some tn /\ tree_contains tn p = true.
Proof.
  intros Hin.
  assert (Hwf0 : wf_tree (new_tree req)) by (split; simpl; auto).
  destruct (tree_add_spec (new_tree req) p Hwf0 Hin) as (t1 & E & Hwf1 & Hr1 & Hw1).
  assert (Hc : tree_contains t1 p = true).
  { rewrite tree_contains_walk, Hr1, Hw1, peqb_refl, orb_true_r, andb_true_r
      by exact Hin.
    exact Hin. }
  exists t1; split; [exact E|]; split; [exact Hc|].
  intros ps; apply adds_keep; auto.
Qed.

Lemma contains_after_add_witness :
  containsPoint (canonical R8) (5, 2) = true /\
  exists t1, tree_add (new_tree R8) (5, 2) = Some (t1, true) /\
    tree_contains t1 (5, 2) = true.
Proof.
  assert (H : containsPoint (canonical R8) (5, 2) = true) by (vm_compute; reflexivity).
  split; [exact H|].
  destruct (contains_after_add R8 (5, 2) H) as (t1 & E & C & _).
  exists t1; split; assumption.
Defined.

(** C6: in every reachable tree, [QuadTree.remove] of a present point
    returns [True]; afterwards [contains] is false for it and unchanged for
    every other point. *)
Theorem remove_present t p :
  reachable t -> tree_contains t p = true ->
  exists t', tree_remove t p = Some (t', true) /\ tree_contains t' p = false /\
    forall p', p' <> p -> tree_contains t' p' = tree_contains t p'.
Proof.
  intros Hr Hc.
  destruct (reachable_wf t Hr) as [Hwf Hat].
  rewrite tree_contains_walk in Hc; apply andb_true_iff in Hc as [Hin Hw].
  destruct (remove_spec (root t) (tregion t) p Hwf Hat) as (s & E & _ & _ & Hs);
    [intros H0; rewrite H0 in Hw; discriminate | exact Hin | exact Hw |].
  unfold tree_remove.
  destruct (root t) as [|r a b c d f] eqn:Er; [discriminate|].
  rewrite Hin; cbn [negb]; rewrite E.
  eexists; split; [reflexivity|]; split.
  - rewrite tree_contains_walk; cbn [root tregion].
    rewrite Hin, Hs, peqb_refl, andb_false_r by exact Hin; reflexivity.
  - intros p' Hne; rewrite !tree_contains_walk; cbn [root tregion].
    destruct (containsPoint (tregion t) p') eqn:Hin'; [|reflexivity].
    rewrite Hs, Er by exact Hin'.
    replace (peqb p' p) with false
      by (symmetry; destruct (peqb p' p) eqn:Q; [apply peqb_iff in Q|]; congruence).
    rewrite andb_true_r; reflexivity.
Qed.

Lemma remove_present_witness :
  reachable t_one /\ tree_contains t_one (0, 0) = true /\
  exists t', tree_remove t_one (0, 0) = Some (t', true) /\
    tree_contains t' (0, 0) = false.
Proof.
  assert (H : tree_contains t_one (0, 0) = true) by (vm_compute; reflexivity).
  split; [exact t_one_reachable|]; split; [exact H|].
  destruct (remove_present t_one (0, 0) t_one_reachable H) as (t' & E & C & _).
  exists t'; split; assumption.
Defined.

(** C1 (code defect): adding [(0, 0)] a second time to the tree over
    [(0, 0, 8, 8)] makes [QuadNode.add] run on the full point node of
    [(0, 0)], which creates a child under it: a full node with a child. *)
Theorem duplicate_add_breaks_compression :
  compressed (root t_one) = true /\
  tree_add t_one (0, 0) = Some (t_two, true) /\
  compressed (root t_two) = false /\
  walk (root t_two) (0, 0) = true.
Proof. vm_compute; repeat split. Qed.

(** C2 (code defect): removing the absent point [(7, 7)] of the region from
    the tree holding only [(0, 0)] reaches [self.children[NE].remove(pt)]
    with [self.children[NE] = None]: the call faults instead of returning
    [False]. *)
Theorem remove_absent_faults :
  reachable t_one /\ containsPoint (tregion t_one) (7, 7) = true /\
  tree_contains t_one (7, 7) = false /\
  tree_remove t_one (7, 7) = None.
Proof.
  split; [exact t_one_reachable|]; vm_compute; repeat split.
Qed.

(** C4 (code defect): after adding [(0, 0)] twice, iterating the tree
    yields [(0, 0)] twice, though the set holds the single point. *)
Theorem duplicate_add_iterates_twice :
  tree_iter t_one = [(0, 0)] /\
  tree_add t_one (0, 0) = Some (t_two, true) /\
  tree_iter t_two = [(0, 0); (0, 0)].
Proof. vm_compute; repeat split. Qed.

(** ** The canonical region *)

Definition square (r : Region) : Prop := x_max r - x_min r = y_max r - y_min r.

Definition pow2 (n : Z) : Prop := exists k, 0 <= k /\ n = 2 ^ k.

Definition encloses (big small : Region) : Prop :=
  x_min big <= x_min small /\ y_min big <= y_min small /\
  x_max small <= x_max big /\ y_max small <= y_max big.

Lemma not_pow2_14 : ~ pow2 14.
Proof.
  intros (k & Hk & E).
  destruct (Z_lt_le_dec k 4) as [Hlt | Hge].
  - assert (k = 0 \/ k = 1 \/ k = 2 \/ k = 3) as [-> | [-> | [-> | ->]]] by lia;
      simpl in E; lia.
  - pose proof (Z.pow_le_mono_r 2 4 k ltac:(lia) Hge); simpl in *; lia.
Qed.

(** C3, refuted: the canonical region of the requested bounds
    [(3, 3, 10, 10)] is not of power-of-two size. *)
Theorem canonical_3_10_not_pow2 :
  ~ (square (canonical (mkRegion 3 3 10 10)) /\
     pow2 (x_max (canonical (mkRegion 3 3 10 10)) - x_min (canonical (mkRegion 3 3 10 10))) /\
     encloses (canonical (mkRegion 3 3 10 10)) (mkRegion 3 3 10 10)).
Proof.
  intros (_ & H & _); apply not_pow2_14; exact H.
Qed.

(** C3, as the code does it: the canonical region of [(3, 3, 10, 10)] is
    [(2, 2, 16, 16)]: square, enclosing the requested rectangle, each bound
    a power of two ([2 = 2^1], [16 = 2^4]), of side [14], which is not a
    power of two. *)
Theorem canonical_3_10 :
  canonical (mkRegion 3 3 10 10) = mkRegion 2 2 16 16 /\
  square (canonical (mkRegion 3 3 10 10)) /\
  encloses (canonical (mkRegion 3 3 10 10)) (mkRegion 3 3 10 10) /\
  pow2 (x_min (canonical (mkRegion 3 3 10 10))) /\
  pow2 (x_max (canonical (mkRegion 3 3 10 10))) /\
  x_max (canonical (mkRegion 3 3 10 10)) - x_min (canonical (mkRegion 3 3 10 10)) = 14 /\
  ~ pow2 14.
Proof.
  unfold square, encloses; vm_compute.
  split; [reflexivity|]; split; [reflexivity|].
  split; [repeat split; discriminate|].
  split; [exists 1; split; [discriminate | reflexivity]|].
  split; [exists 4; split; [discriminate | reflexivity]|].
  split; [reflexivity | exact not_pow2_14].
Qed.

(** ** Trees over squares of side [2^k]

    [sq k n]: [n] lies over a square of side [2^k]; a full node has no
    children; a node that is not full is not a point node and does not have
    four full children; the children lie over squares of side [2^(k-1)]. *)
Fixpoint sq (k : nat) (n : slot) {struct n} : Prop :=
  match n with
  | Empty => True
  | Node r ne nw sw se f =>
      x_max r - x_min r = 2 ^ Z.of_nat k /\ y_max r - y_min r = 2 ^ Z.of_nat k /\
      (if f then childrenNull ne nw sw se = true
       else childrenFull ne nw sw se = false /\ k <> O) /\
      match k with
      | O => True
      | S k' => sq k' ne /\ sq k' nw /\ sq k' sw /\ sq k' se
      end
  end.

Definition sides (r : Region) (k : nat) : Prop :=
  x_max r - x_min r = 2 ^ Z.of_nat k /\ y_max r - y_min r = 2 ^ Z.of_nat k.

Lemma sq_Node k r ne nw sw se f :
  sq (S k) (Node r ne nw sw se f) <->
  sides r (S k) /\
  (if f then childrenNull ne nw sw se = true else childrenFull ne nw sw se = false) /\
  forall q, sq k (pick q ne nw sw se).
Proof.
  unfold sides; simpl sq; split.
  - intros (Hx & Hy & Hf & Ha & Hb & Hc & Hd); split; [auto|]; split.
    + destruct f; [exact Hf | apply Hf].
    + intros q; destruct q; assumption.
  - intros ((Hx & Hy) & Hf & Hq); split; [auto|]; split; [auto|]; split.
    + destruct f; [exact Hf | split; [exact Hf | discriminate]].
    + exact (conj (Hq NE) (conj (Hq NW) (conj (Hq SW) (Hq SE)))).
Qed.

Lemma sq_leaf k r : sides r k -> sq k (leaf r).
Proof. intros [Hx Hy]; destruct k; simpl in *; repeat split; auto. Qed.

Lemma sub_sides k r q : sides r (S k) -> sides (subregion r q) k.
Proof.
  unfold sides; rewrite Nat2Z.inj_succ, Z.pow_succ_r by lia.
  set (w := 2 ^ Z.of_nat k).
  assert (Hw : 2 * w / 2 = w) by (rewrite Z.mul_comm; apply Z.div_mul; lia).
  unfold subregion, origin; intros [Hx Hy]; rewrite Hx, Hy, Hw.
  destruct q; simpl; lia.
Qed.

Lemma isPoint_sides k r : sides r k -> isPoint r = true <-> k = O.
Proof.
  unfold sides, isPoint; intros [Hx Hy]; rewrite andb_true_iff, !Z.eqb_eq.
  destruct k as [|k]; [simpl in *; lia|].
  assert (2 ^ 1 <= 2 ^ Z.of_nat (S k)) by (apply Z.pow_le_mono_r; lia).
  simpl in H; split; [lia | discriminate].
Qed.

(** The tail of [QuadNode.add] on a node that was not full. *)
Lemma sq_collapse k r ne nw sw se :
  sides r (S k) -> (forall q, sq k (pick q ne nw sw se)) ->
  sq (S k) (collapse (Node r ne nw sw se false)).
Proof.
  intros Hs Hq; simpl collapse.
  destruct (childrenFull ne nw sw se) eqn:Hf.
  - apply sq_leaf; exact Hs.
  - apply sq_Node; auto.
Qed.

Lemma sq_upd k q c ne nw sw se :
  sq k c -> (forall q', sq k (pick q' ne nw sw se)) ->
  forall q', sq k (pick q' (upd q c ne nw sw se NE) (upd q c ne nw sw se NW)
                          (upd q c ne nw sw se SW) (upd q c ne nw sw se SE)).
Proof.
  intros Hc Hq q'; rewrite pick_gen; unfold upd; destruct (qeqb q q'); auto.
Qed.

Lemma sq_fresh fuel : forall k r pt c b,
  sides r (S k) -> add_fresh fuel r pt = Some (c, b) -> sq (S k) c.
Proof.
  induction fuel as [|fuel IH]; intros k r pt c b Hs H; [discriminate|].
  cbn [add_fresh] in H.
  pose proof (sub_sides k r (quadrant r pt) Hs) as Hss.
  destruct (isPoint (subregion r (quadrant r pt))) eqn:Hp.
  - injection H as <- _.
    rewrite node_with_upd; apply sq_collapse; [exact Hs|].
    apply sq_upd; [apply sq_leaf; exact Hss | intros q'; destruct q'; exact I].
  - destruct (add_fresh fuel (subregion r (quadrant r pt)) pt) as [[ch u]|] eqn:E;
      [|discriminate].
    injection H as <- _.
    destruct k as [|k]; [pose proof (proj2 (isPoint_sides O _ Hss) eq_refl); congruence|].
    rewrite node_with_upd; apply sq_collapse; [exact Hs|].
    apply sq_upd; [exact (IH _ _ _ _ _ Hss E) | intros q'; destruct q'; exact I].
Qed.

(** [QuadNode.add] of a point not yet present keeps the shape. *)
Lemma sq_add n : forall k r pt n',
  wf n -> at_region n r -> sq k n -> n <> Empty -> containsPoint r pt = true ->
  walk n pt = false -> add n pt = Some (n', true) -> sq k n'.
Proof.
  induction n as [|r0 a IHa b IHb c IHc d IHd f];
    intros k r pt n' Hwf Hat Hsq Hne Hin Hw H; [congruence|].
  simpl in Hat; subst r0.
  destruct f; [discriminate|].
  destruct k as [|k]; [simpl in Hsq; tauto|].
  apply sq_Node in Hsq as (Hs & _ & Hq).
  assert (IH : forall q k' r' n'', wf (pick q a b c d) ->
            at_region (pick q a b c d) r' -> sq k' (pick q a b c d) ->
            pick q a b c d <> Empty -> containsPoint r' pt = true ->
            walk (pick q a b c d) pt = false ->
            add (pick q a b c d) pt = Some (n'', true) -> sq k' n'')
    by (destruct q; simpl; eauto).
  pose proof (sub_of_quadrant r pt Hin) as Hsr.
  pose proof (sub_sides k r (quadrant r pt) Hs) as Hss.
  pose proof (proj1 (wf_Node r a b c d false) Hwf (quadrant r pt)) as [Hat' Hwf'].
  rewrite walk_Node in Hw; cbn [orb] in Hw.
  rewrite add_Node in H.
  destruct (pick (quadrant r pt) a b c d) eqn:Ech.
  - destruct (new_child (subregion r (quadrant r pt)) pt) as [ch|] eqn:E;
      [|discriminate].
    injection H as <-.
    rewrite node_with_upd; apply sq_collapse; [exact Hs|].
    apply sq_upd; [|exact Hq].
    unfold new_child in E.
    destruct (isPoint (subregion r (quadrant r pt))) eqn:Hp.
    + injection E as <-; apply sq_leaf; exact Hss.
    + destruct k as [|k]; [pose proof (proj2 (isPoint_sides O _ Hss) eq_refl); congruence|].
      destruct (add_fresh _ _ pt) as [[ch' u]|] eqn:E'; [|discriminate].
      injection E as <-; exact (sq_fresh _ _ _ _ _ _ Hss E').
  - rewrite <- Ech in Hat', Hwf', Hw, H.
    destruct (add (pick (quadrant r pt) a b c d) pt) as [[c' [|]]|] eqn:E;
      [|discriminate|discriminate].
    injection H as <-.
    rewrite node_with_upd; apply sq_collapse; [exact Hs|].
    apply sq_upd; [|exact Hq].
    apply (IH _ k _ _ Hwf' Hat' (Hq _)); auto.
    rewrite Ech; discriminate.
Qed.

(** A node of that shape holding every point of its region is a single
    full node. *)
Lemma sq_full n : forall k r,
  wf n -> at_region n r -> sq k n -> n <> Empty ->
  (forall p, containsPoint r p = true -> walk n p = true) -> n = leaf r.
Proof.
  induction n as [|r0 a IHa b IHb c IHc d IHd f]; intros k r Hwf Hat Hsq Hne Hall;
    [congruence|].
  simpl in Hat; subst r0.
  destruct f.
  - destruct k; simpl in Hsq; destruct Hsq as (_ & _ & Hn & _);
      rewrite childrenNull_iff in Hn;
      pose proof (Hn NE); pose proof (Hn NW); pose proof (Hn SW); pose proof (Hn SE);
      simpl in *; subst; reflexivity.
  - destruct k as [|k]; [simpl in Hsq; tauto|].
    apply sq_Node in Hsq as (Hs & Hf & Hq).
    exfalso; rewrite <- not_true_iff_false in Hf; apply Hf.
    apply childrenFull_iff; intros q.
    assert (IH : forall k' r', wf (pick q a b c d) -> at_region (pick q a b c d) r' ->
              sq k' (pick q a b c d) -> pick q a b c d <> Empty ->
              (forall p, containsPoint r' p = true -> walk (pick q a b c d) p = true) ->
              pick q a b c d = leaf r')
      by (destruct q; simpl; eauto).
    pose proof (proj1 (wf_Node r a b c d false) Hwf q) as [Hat' Hwf'].
    pose proof (sub_sides k r q Hs) as [Hx Hy].
    assert (Hsub : forall p, containsPoint (subregion r q) p = true ->
                   walk (pick q a b c d) p = true).
    { intros p Hp; destruct (quadrant_of_sub r q p Hp) as [Hin Hqp].
      specialize (Hall p Hin); rewrite walk_Node, Hqp in Hall; exact Hall. }
    assert (Hne' : pick q a b c d <> Empty).
    { intros E.
      assert (Hc : containsPoint (subregion r q)
                     (x_min (subregion r q), y_min (subregion r q)) = true).
      { apply containsPoint_iff; simpl.
        pose proof (Z.pow_pos_nonneg 2 (Z.of_nat k)); lia. }
      specialize (Hsub _ Hc); rewrite E in Hsub; discriminate. }
    rewrite (IH k (subregion r q)); auto.
Qed.

Lemma canonical_square req :
  y_max (canonical req) - y_min (canonical req) =
  x_max (canonical req) - x_min (canonical req).
Proof. reflexivity. Qed.

(** [QuadTree.add] of a point not yet present keeps the shape. *)
Lemma tree_add_sq k t q t1 b :
  wf_tree t -> sides (tregion t) (S k) -> sq (S k) (root t) ->
  containsPoint (tregion t) q = true -> walk (root t) q = false ->
  tree_add t q = Some (t1, b) -> sq (S k) (root t1).
Proof.
  intros [Hwf Hat] Hs Hsq Hin Hw H.
  unfold tree_add in H; rewrite Hin in H; cbn [negb] in H.
  set (rt := match root t with
             | Empty => Node (tregion t) Empty Empty Empty Empty false
             | n => n end) in H.
  assert (Hrt : wf rt /\ at_region rt (tregion t) /\ sq (S k) rt /\ rt <> Empty /\
                walk rt q = false).
  { subst rt; destruct (root t) as [|r a b0 c d f] eqn:Er.
    - split; [apply wf_fresh|]; split; [reflexivity|]; split.
      + apply sq_Node; split; [exact Hs|]; split; [reflexivity|].
        intros q'; destruct q'; exact I.
      + split; [discriminate | apply walk_fresh].
    - refine (conj Hwf (conj Hat (conj Hsq (conj _ Hw)))); discriminate. }
  destruct Hrt as (Hwf' & Hat' & Hsq' & Hne' & Hw').
  destruct (add_spec rt (tregion t) q Hwf' Hat' Hne' Hin) as (n' & E & _).
  rewrite E in H; injection H as <- _; cbn [root].
  exact (sq_add rt (S k) (tregion t) q n' Hwf' Hat' Hsq' Hne' Hin Hw' E).
Qed.

(** Adding distinct points, none present yet, one after the other. *)
Lemma adds_fill k ps : forall t,
  wf_tree t -> sides (tregion t) (S k) -> sq (S k) (root t) -> NoDup ps ->
  (forall p, In p ps -> containsPoint (tregion t) p = true /\ walk (root t) p = false) ->
  exists t', run t (map OpAdd ps) = Some t' /\ wf_tree t' /\ sq (S k) (root t') /\
    tregion t' = tregion t /\
    forall p, containsPoint (tregion t) p = true ->
      walk (root t') p = walk (root t) p || existsb (peqb p) ps.
Proof.
  induction ps as [|q ps IH]; intros t Hwf Hs Hsq Hnd Hps.
  - exists t; split; [reflexivity|]; split; [exact Hwf|]; split; [exact Hsq|].
    split; [reflexivity|].
    intros p _; cbn [existsb]; rewrite orb_false_r; reflexivity.
  - inversion Hnd as [|? ? Hq Hnd']; subst.
    destruct (Hps q (or_introl eq_refl)) as [Hin Hw].
    destruct (tree_add_spec t q Hwf Hin) as (t1 & E & Hwf1 & Hr1 & Hw1).
    pose proof (tree_add_sq k t q t1 true Hwf Hs Hsq Hin Hw E) as Hsq1.
    destruct (IH t1 Hwf1 ltac:(rewrite Hr1; exact Hs) Hsq1 Hnd') as
        (t' & E' & Hwf' & Hsq' & Hr' & Hw').
    { intros p Hp; rewrite Hr1.
      destruct (Hps p (or_intror Hp)) as [Hinp Hwp]; split; [exact Hinp|].
      rewrite Hw1, Hwp by exact Hinp; cbn [orb].
      destruct (peqb p q) eqn:Q; [apply peqb_iff in Q; subst; contradiction|].
      reflexivity. }
    exists t'; cbn [map run step]; rewrite E; cbn [option_map fst].
    split; [exact E'|]; split; [exact Hwf'|]; split; [exact Hsq'|].
    split; [congruence|].
    intros p Hp; rewrite Hw' by (rewrite Hr1; exact Hp).
    rewrite Hw1 by exact Hp; cbn [existsb].
    rewrite orb_assoc; reflexivity.
Qed.

Lemma existsb_peqb_In p ps : existsb (peqb p) ps = true <-> In p ps.
Proof.
  rewrite existsb_exists; split.
  - intros (x & Hx & E); apply peqb_iff in E; subst; exact Hx.
  - intros H; exists p; split; [exact H | apply peqb_refl].
Qed.

(** ** Which roots can become full

    [QuadNode.add] sets [full] on a point node it creates, or on a node
    whose four children are full; [subdivide] makes the four quadrants of a
    full node full.  So a full node lies over a region that splits, quadrant
    by quadrant, down to point regions: [fillable]. *)
Fixpoint fillable (fuel : nat) (r : Region) : bool :=
  isPoint r ||
  match fuel with
  | O => false
  | S f => fillable f (subregion r NE) && fillable f (subregion r NW) &&
           fillable f (subregion r SW) && fillable f (subregion r SE)
  end.

Definition filled (r : Region) : Prop := exists f, fillable f r = true.

(** Every full node of the subtree lies over a [filled] region. *)
Fixpoint fi (n : slot) : Prop :=
  match n with
  | Empty => True
  | Node r ne nw sw se f =>
      (f = true -> filled r) /\ fi ne /\ fi nw /\ fi sw /\ fi se
  end.

Definition winv (n : slot) (r : Region) : Prop := wf n /\ at_region n r /\ fi n.

(** The tree invariant: besides [fi], a full root has four [filled]
    quadrants (the root is created with [full = False]). *)
Definition root_filled (t : QuadTree) : Prop :=
  fi (root t) /\
  (is_full (root t) = true -> forall q, filled (subregion (tregion t) q)).

Lemma fillable_S f r :
  fillable (S f) r = true <->
  isPoint r = true \/ forall q, fillable f (subregion r q) = true.
Proof.
  cbn [fillable]; rewrite orb_true_iff, !andb_true_iff; split.
  - intros [H | (((? & ?) & ?) & ?)]; [left; exact H | right; intros []; assumption].
  - intros [H | H]; [left; exact H | right; repeat split; apply H].
Qed.

Lemma fillable_mono f : forall f' r,
  (f <= f')%nat -> fillable f r = true -> fillable f' r = true.
Proof.
  induction f as [|f IH]; intros f' r Hle H.
  - cbn [fillable] in H; rewrite orb_false_r in H.
    destruct f'; cbn [fillable]; rewrite H; reflexivity.
  - destruct f' as [|f']; [lia|].
    apply fillable_S in H; apply fillable_S.
    destruct H as [H | H]; [left; exact H | right; intros q; apply (IH f'); auto; lia].
Qed.

Lemma filled_point r : isPoint r = true -> filled r.
Proof. intros H; exists O; cbn [fillable]; rewrite H; reflexivity. Qed.

Lemma filled_subs r : (forall q, filled (subregion r q)) -> filled r.
Proof.
  intros H.
  destruct (H NE) as [a Ha], (H NW) as [b Hb], (H SW) as [c Hc], (H SE) as [d Hd].
  exists (S (a + b + c + d)); apply fillable_S; right; intros q.
  destruct q; [apply (fillable_mono a) | apply (fillable_mono b)
              | apply (fillable_mono c) | apply (fillable_mono d)]; auto; lia.
Qed.

Lemma filled_sub r q : filled r -> isPoint r = false -> filled (subregion r q).
Proof.
  intros [f Hf] Hp; destruct f as [|f].
  - cbn [fillable] in Hf; rewrite Hp in Hf; discriminate.
  - apply fillable_S in Hf as [Hf | Hf]; [congruence | exists f; apply Hf].
Qed.

(** A [fillable] region is a square of side [2^e]. *)
Lemma fillable_pow2 f : forall r,
  fillable f r = true ->
  exists e, 0 <= e /\ x_max r - x_min r = 2 ^ e /\ y_max r - y_min r = 2 ^ e.
Proof.
  assert (Hpt : forall r, isPoint r = true ->
            exists e, 0 <= e /\ x_max r - x_min r = 2 ^ e /\ y_max r - y_min r = 2 ^ e).
  { intros r; unfold isPoint; rewrite andb_true_iff, !Z.eqb_eq; intros [Hx Hy].
    exists 0; cbn; lia. }
  induction f as [|f IH]; intros r H.
  - cbn [fillable] in H; rewrite orb_false_r in H; auto.
  - apply fillable_S in H as [H | H]; [auto|].
    destruct (IH _ (H SW)) as (a & Ha & Hw1 & Hh1).
    destruct (IH _ (H NE)) as (b & Hb & Hw2 & Hh2).
    destruct (IH _ (H NW)) as (c & Hc & Hw3 & Hh3).
    unfold subregion, origin in *; cbn [x_min y_min x_max y_max] in *.
    exists (a + 1); rewrite Z.pow_add_r by lia; cbn [Z.pow Z.pow_pos Pos.iter].
    split; [lia|]; split; lia.
Qed.

Lemma fi_Node r ne nw sw se f :
  fi (Node r ne nw sw se f) <->
  (f = true -> filled r) /\ forall q, fi (pick q ne nw sw se).
Proof.
  cbn [fi]; split.
  - intros (H & ? & ? & ? & ?); split; [exact H|]; intros q; destruct q; assumption.
  - intros [H Hq]; pose proof (Hq NE); pose proof (Hq NW); pose proof (Hq SW);
      pose proof (Hq SE); cbn [pick] in *; tauto.
Qed.

Lemma fi_leaf r : filled r -> fi (leaf r).
Proof. intros H; cbn [fi leaf]; split; [intros _; exact H | tauto]. Qed.

Lemma fi_full_at c r : fi c -> at_region c r -> is_full c = true -> filled r.
Proof.
  destruct c as [|r' a b c d f]; [discriminate 3|].
  cbn [fi at_region is_full]; intros (H & _) <- Hf; exact (H Hf).
Qed.

(** [collapse] makes a node full only when its four children are full. *)
Lemma collapse_full r ne nw sw se f :
  wf (Node r ne nw sw se f) -> fi (Node r ne nw sw se f) ->
  is_full (collapse (Node r ne nw sw se f)) = true ->
  f = true \/ forall q, filled (subregion r q).
Proof.
  intros Hwf Hfi; cbn [collapse].
  destruct (childrenFull ne nw sw se) eqn:Hc; [intros _ | cbn [is_full]; left; assumption].
  right; intros q.
  rewrite childrenFull_iff in Hc; rewrite wf_Node in Hwf; apply fi_Node in Hfi.
  exact (fi_full_at _ _ (proj2 Hfi q) (proj1 (Hwf q)) (Hc q)).
Qed.

Lemma winv_collapse n r : winv n r -> winv (collapse n) r.
Proof.
  destruct n as [|r0 a b c d f]; [auto|].
  intros (Hwf & Hat & Hfi).
  destruct (childrenFull a b c d) eqn:Hc.
  - assert (Hfull : is_full (collapse (Node r0 a b c d f)) = true)
      by (cbn [collapse]; rewrite Hc; reflexivity).
    destruct (collapse_full _ _ _ _ _ _ Hwf Hfi Hfull) as [Hf | Hs];
      cbn [collapse]; rewrite Hc; (split; [apply wf_leaf | split; [exact Hat|]]);
      apply fi_leaf; [exact (proj1 Hfi Hf) | apply filled_subs, Hs].
  - cbn [collapse]; rewrite Hc; split; auto.
Qed.

Lemma winv_node_with r q c ne nw sw se f f' :
  wf (Node r ne nw sw se f) -> (forall q', fi (pick q' ne nw sw se)) ->
  (f' = true -> filled r) -> winv c (subregion r q) ->
  winv (node_with r q c ne nw sw se f') r.
Proof.
  intros Hwf Hk Hf (Hw & Ha & Hc); rewrite node_with_upd.
  rewrite wf_Node in Hwf.
  split; [|split; [reflexivity|]].
  - apply wf_Node; intros q'; rewrite pick_gen; unfold upd.
    destruct (qeqb q q') eqn:E; [apply qeqb_iff in E; subst; auto | apply Hwf].
  - apply fi_Node; split; [exact Hf|].
    intros q'; rewrite pick_gen; unfold upd; destruct (qeqb q q'); auto.
Qed.

Lemma fi_prune n : fi n -> fi (prune n).
Proof.
  destruct n as [|r a b c d f]; [auto|].
  cbn [prune]; destruct (childrenNull a b c d); [intros _; exact I | auto].
Qed.

Lemma is_full_node_with r q c ne nw sw se f :
  is_full (node_with r q c ne nw sw se f) = f.
Proof. destruct q; reflexivity. Qed.

Lemma add_fresh_winv fuel : forall r pt c b,
  add_fresh fuel r pt = Some (c, b) -> winv c r.
Proof.
  induction fuel as [|fuel IH]; intros r pt c b H; [discriminate|].
  cbn [add_fresh] in H; revert H; generalize (quadrant r pt) as q; intros q H.
  assert (Hch : forall c0,
    (if isPoint (subregion r q) then Some (leaf (subregion r q))
     else option_map fst (add_fresh fuel (subregion r q) pt)) = Some c0 ->
    winv c0 (subregion r q)).
  { intros c0; destruct (isPoint (subregion r q)) eqn:Hp.
    - intros [= <-]; split; [apply wf_leaf | split; [reflexivity|]].
      apply fi_leaf, filled_point, Hp.
    - destruct (add_fresh fuel _ pt) as [[c1 b1]|] eqn:E; [|discriminate].
      intros [= <-]; exact (IH _ _ _ _ E). }
  destruct (if isPoint (subregion r q) then Some (leaf (subregion r q))
            else option_map fst (add_fresh fuel (subregion r q) pt))
    as [c0|] eqn:E0; [|discriminate].
  injection H as <- _.
  apply winv_collapse, (winv_node_with r q c0 _ _ _ _ false); auto.
  - apply wf_fresh.
  - intros q'; rewrite pick_Empty; exact I.
  - intros Hf; discriminate Hf.
Qed.

Lemma new_child_winv sr pt c : new_child sr pt = Some c -> winv c sr.
Proof.
  unfold new_child; destruct (isPoint sr) eqn:Hp.
  - intros [= <-]; split; [apply wf_leaf | split; [reflexivity|]].
    apply fi_leaf, filled_point, Hp.
  - destruct (add_fresh (rfuel sr) sr pt) as [[c1 b1]|] eqn:E; [|discriminate].
    intros [= <-]; exact (add_fresh_winv _ _ _ _ _ E).
Qed.

(** [QuadNode.add] keeps the invariant. *)
Lemma add_winv n : forall r pt n' b, winv n r -> add n pt = Some (n', b) -> winv n' r.
Proof.
  induction n as [|r0 a IHa b0 IHb c IHc d IHd f]; intros r pt n' b Hn H;
    [discriminate|].
  destruct Hn as (Hwf & Hat & Hfi); cbn [at_region] in Hat; subst r0.
  assert (IH : forall q r' n1 b1, winv (pick q a b0 c d) r' ->
            add (pick q a b0 c d) pt = Some (n1, b1) -> winv n1 r')
    by (destruct q; simpl; eauto).
  pose proof (proj1 (wf_Node r a b0 c d f) Hwf (quadrant r pt)) as [Hat' Hwf'].
  pose proof (proj1 (fi_Node r a b0 c d f) Hfi) as [Hff Hk].
  rewrite add_Node in H.
  destruct (pick (quadrant r pt) a b0 c d) eqn:Ech.
  - destruct (new_child _ pt) as [c0|] eqn:E; [|discriminate].
    injection H as <- _.
    apply winv_collapse, (winv_node_with r _ c0 a b0 c d f f Hwf Hk Hff).
    exact (new_child_winv _ _ _ E).
  - rewrite <- Ech in H, Hat', Hwf'.
    destruct (add (pick (quadrant r pt) a b0 c d) pt) as [[c' b1]|] eqn:E;
      [|discriminate].
    assert (Hc' : winv c' (subregion r (quadrant r pt)))
      by exact (IH _ _ _ _ (conj Hwf' (conj Hat' (Hk _))) E).
    destruct b1; injection H as <- _; [apply winv_collapse|];
      exact (winv_node_with r _ c' a b0 c d f f Hwf Hk Hff Hc').
Qed.

(** After [QuadNode.add] a node is full only if it was full before or its
    four quadrants are [filled]. *)
Lemma add_root_full n r pt n' b :
  winv n r -> add n pt = Some (n', b) -> is_full n' = true ->
  is_full n = true \/ forall q, filled (subregion r q).
Proof.
  destruct n as [|r0 a b0 c d f]; [discriminate 2|].
  intros Hn H Hfull.
  pose proof Hn as (Hwf & Hat & Hfi); cbn [at_region] in Hat; subst r0.
  pose proof (proj1 (fi_Node r a b0 c d f) Hfi) as [Hff Hk].
  pose proof (proj1 (wf_Node r a b0 c d f) Hwf (quadrant r pt)) as [Hat' Hwf'].
  assert (Hcol : forall c', winv c' (subregion r (quadrant r pt)) ->
            is_full (collapse (node_with r (quadrant r pt) c' a b0 c d f)) = true ->
            is_full (Node r a b0 c d f) = true \/ forall q, filled (subregion r q)).
  { intros c' Hc' Hf.
    destruct (winv_node_with r (quadrant r pt) c' a b0 c d f f Hwf Hk Hff Hc')
      as (Hw2 & _ & Hf2).
    rewrite node_with_upd in Hf, Hw2, Hf2.
    destruct (collapse_full _ _ _ _ _ _ Hw2 Hf2 Hf) as [-> | Hs];
      [left; reflexivity | right; exact Hs]. }
  rewrite add_Node in H.
  destruct (pick (quadrant r pt) a b0 c d) eqn:Ech.
  - destruct (new_child _ pt) as [c0|] eqn:E; [|discriminate].
    injection H as <- _.
    exact (Hcol c0 (new_child_winv _ _ _ E) Hfull).
  - rewrite <- Ech in H, Hat', Hwf'.
    destruct (add (pick (quadrant r pt) a b0 c d) pt) as [[c' b1]|] eqn:E;
      [|discriminate].
    assert (Hc' : winv c' (subregion r (quadrant r pt)))
      by exact (add_winv _ _ _ _ _ (conj Hwf' (conj Hat' (Hk _))) E).
    destruct b1; injection H as <- _; [exact (Hcol c' Hc' Hfull)|].
    rewrite is_full_node_with in Hfull; left; exact Hfull.
Qed.

Lemma remove_full_fi fuel : forall r pt s b,
  filled r -> remove_full fuel r pt = Some (s, b) -> fi s.
Proof.
  induction fuel as [|fuel IH]; intros r pt s b Hr H; [discriminate|].
  cbn [remove_full] in H.
  destruct (isPoint r) eqn:Hp; [injection H as <- _; exact I|].
  destruct (remove_full fuel (subregion r (quadrant r pt)) pt) as [[c u]|] eqn:E;
    [|discriminate].
  injection H as <- _.
  apply fi_prune; rewrite node_with_upd; apply fi_Node; split;
    [intros Hf; discriminate Hf|].
  intros q; rewrite pick_gen; unfold upd.
  destruct (qeqb (quadrant r pt) q).
  - exact (IH _ _ _ _ (filled_sub r _ Hr Hp) E).
  - rewrite pick_subdivided; apply fi_leaf, filled_sub; assumption.
Qed.

(** [QuadNode.remove] keeps [fi]. *)
Lemma remove_fi n : forall pt s b, fi n -> remove n pt = Some (s, b) -> fi s.
Proof.
  induction n as [|r a IHa b0 IHb c IHc d IHd f]; intros pt s b Hfi H;
    [discriminate|].
  assert (IH : forall q s' b', fi (pick q a b0 c d) ->
            remove (pick q a b0 c d) pt = Some (s', b') -> fi s')
    by (destruct q; simpl; eauto).
  apply fi_Node in Hfi as [Hff Hk].
  rewrite remove_Node in H.
  destruct (isPoint r) eqn:Hpt; [injection H as <- _; exact I|].
  destruct f.
  - destruct (remove_full _ _ pt) as [[c0 u]|] eqn:E; [|discriminate].
    injection H as <- _.
    apply fi_prune; rewrite node_with_upd; apply fi_Node; split;
      [intros Hf; discriminate Hf|].
    intros q; rewrite pick_gen; unfold upd.
    destruct (qeqb (quadrant r pt) q).
    + exact (remove_full_fi _ _ _ _ _ (filled_sub r _ (Hff eq_refl) Hpt) E).
    + rewrite pick_subdivided; apply fi_leaf, filled_sub; auto.
  - destruct (pick (quadrant r pt) a b0 c d) eqn:Ech; [discriminate|].
    rewrite <- Ech in H.
    destruct (remove (pick (quadrant r pt) a b0 c d) pt) as [[c0 u]|] eqn:E;
      [|discriminate].
    injection H as <- _.
    apply fi_prune; rewrite node_with_upd; apply fi_Node; split;
      [intros Hf; discriminate Hf|].
    intros q; rewrite pick_gen; unfold upd.
    destruct (qeqb (quadrant r pt) q); [exact (IH _ _ _ (Hk _) E) | apply Hk].
Qed.

(** [QuadNode.remove] never leaves a full node: it subdivides and clears
    [full], or returns [None]. *)
Lemma remove_not_full n pt s b : remove n pt = Some (s, b) -> is_full s = false.
Proof.
  assert (Hp : forall r q c ne nw sw se,
            is_full (prune (node_with r q c ne nw sw se false)) = false).
  { intros; rewrite node_with_upd; cbn [prune]; destruct (childrenNull _ _ _ _);
      reflexivity. }
  destruct n as [|r a b0 c d f]; [discriminate|].
  rewrite remove_Node; destruct (isPoint r); [intros [= <- _]; reflexivity|].
  destruct f.
  - destruct (remove_full _ _ pt) as [[c0 u]|]; [intros [= <- _]; apply Hp | discriminate].
  - destruct (pick (quadrant r pt) a b0 c d); [discriminate|].
    destruct (remove _ pt) as [[c0 u]|]; [intros [= <- _]; apply Hp | discriminate].
Qed.

Lemma reachable_root_filled t : reachable t -> root_filled t.
Proof.
  induction 1 as [req | t p t' b Hr IH H | t p t' b Hr IH H].
  - split; [exact I | intros Hf; discriminate Hf].
  - pose proof (reachable_wf t Hr) as Hwt.
    unfold tree_add in H.
    destruct (containsPoint (tregion t) p); cbn [negb] in H;
      [|injection H as <- _; exact IH].
    destruct IH as [Hfi Hroot]; destruct Hwt as [Hwf Hat].
    destruct (root t) as [|r a b0 c d f] eqn:Er; cbv beta iota zeta in H;
      (destruct (add _ p) as [[n' b1]|] eqn:E; [|discriminate]);
      injection H as <- _; cbn [root tregion].
    + assert (Hw0 : winv (Node (tregion t) Empty Empty Empty Empty false) (tregion t)).
      { split; [apply wf_fresh | split; [reflexivity|]].
        cbn [fi]; split; [intros Hf; discriminate Hf | tauto]. }
      split; [exact (proj2 (proj2 (add_winv _ _ _ _ _ Hw0 E)))|].
      intros Hf; destruct (add_root_full _ _ _ _ _ Hw0 E Hf) as [Hc | Hs];
        [discriminate Hc | exact Hs].
    + assert (Hw0 : winv (Node r a b0 c d f) (tregion t)) by (split; [|split]; auto).
      split; [exact (proj2 (proj2 (add_winv _ _ _ _ _ Hw0 E)))|].
      intros Hf; destruct (add_root_full _ _ _ _ _ Hw0 E Hf) as [Hc | Hs];
        [exact (Hroot Hc) | exact Hs].
  - unfold tree_remove in H.
    destruct (root t) as [|r a b0 c d f] eqn:Er; [injection H as <- _; exact IH|].
    destruct (negb _); [injection H as <- _; exact IH|].
    destruct (remove _ p) as [[s u]|] eqn:E; [|discriminate].
    injection H as <- _; destruct IH as [Hfi _]; rewrite Er in Hfi.
    split; [exact (remove_fi _ _ _ _ Hfi E)|].
    cbn [root]; rewrite (remove_not_full _ _ _ _ E); intros Hf; discriminate Hf.
Qed.

Lemma run_reachable ops : forall t t',
  reachable t -> run t ops = Some t' -> reachable t' /\ tregion t' = tregion t.
Proof.
  induction ops as [|o ops IH]; intros t t' Hr H; cbn [run] in H.
  - injection H as <-; auto.
  - destruct (step t o) as [t1|] eqn:E; [|discriminate].
    assert (Ht1 : reachable t1 /\ tregion t1 = tregion t).
    { pose proof (reachable_wf t Hr) as Hw.
      destruct o as [q|q]; cbn [step] in E.
      - destruct (tree_add t q) as [[t2 b]|] eqn:E2; [|discriminate].
        injection E as <-; split; [eapply reach_add; eauto|].
        exact (proj2 (tree_add_wf _ _ _ _ Hw E2)).
      - destruct (tree_remove t q) as [[t2 b]|] eqn:E2; [|discriminate].
        injection E as <-; split; [eapply reach_remove; eauto|].
        exact (proj2 (tree_remove_wf _ _ _ _ Hw E2)). }
    destruct Ht1 as [Hr1 Hq1]; destruct (IH t1 t' Hr1 H); split; congruence.
Qed.

(** In a reachable tree, a full root lies over a square of side [2^k] with
    [k >= 1]. *)
Lemma root_full_pow2 t :
  reachable t -> is_full (root t) = true ->
  exists k, (1 <= k)%nat /\ x_max (tregion t) - x_min (tregion t) = 2 ^ Z.of_nat k.
Proof.
  intros Hr Hf; destruct (reachable_root_filled t Hr) as [_ Hroot].
  specialize (Hroot Hf).
  destruct (Hroot SW) as [f1 H1], (Hroot NE) as [f2 H2], (Hroot NW) as [f3 H3].
  destruct (fillable_pow2 _ _ H1) as (a & Ha & Hw1 & Hh1).
  destruct (fillable_pow2 _ _ H2) as (b & Hb & Hw2 & Hh2).
  destruct (fillable_pow2 _ _ H3) as (c & Hc & Hw3 & Hh3).
  unfold subregion, origin in *; cbn [x_min y_min x_max y_max] in *.
  exists (Z.to_nat (a + 1)); split; [lia|].
  rewrite Z2Nat.id, Z.pow_add_r by lia; cbn [Z.pow Z.pow_pos Pos.iter]; lia.
Qed.

(** Adding every point of a square of side [2^k], [k >= 1], once: the root
    ends full, without children. *)
Lemma fill_square_root req k ps :
  (1 <= k)%nat ->
  x_max (canonical req) - x_min (canonical req) = 2 ^ Z.of_nat k ->
  NoDup ps ->
  (forall p, In p ps <-> containsPoint (canonical req) p = true) ->
  exists t, run (new_tree req) (map OpAdd ps) = Some t /\
    root t = leaf (canonical req).
Proof.
  intros Hk Hside Hnd Hps.
  destruct k as [|k]; [lia|].
  assert (Hs : sides (tregion (new_tree req)) (S k))
    by (split; [exact Hside | rewrite <- Hside; apply canonical_square]).
  destruct (adds_fill k ps (new_tree req) ltac:(split; simpl; auto) Hs I Hnd)
    as (t' & E & [Hwf Hat] & Hsq & Hr & Hw).
  { intros p Hp; split; [apply Hps; exact Hp | reflexivity]. }
  exists t'; split; [exact E|].
  assert (Hall : forall p, containsPoint (canonical req) p = true ->
                 walk (root t') p = true).
  { intros p Hp; rewrite (Hw p Hp); cbn [root new_tree walk orb].
    apply existsb_peqb_In, Hps, Hp. }
  rewrite Hr in Hat; cbn [tregion new_tree] in Hat.
  apply (sq_full (root t') (S k)); auto.
  intros E0.
  assert (Hc : containsPoint (canonical req)
                 (x_min (canonical req), y_min (canonical req)) = true).
  { apply containsPoint_iff; cbn [fst snd].
    pose proof (Z.pow_pos_nonneg 2 (Z.of_nat (S k)) ltac:(lia) ltac:(lia)).
    pose proof (canonical_square req); lia. }
  specialize (Hall _ Hc); rewrite E0 in Hall; discriminate.
Qed.

Definition R2 : Region := mkRegion 0 0 2 2.


(** [range]-membership and enumeration of a region. *)
Lemma In_zrange a b z : In z (zrange a b) <-> a <= z < b.
Proof.
  unfold zrange; rewrite in_map_iff; split.
  - intros (i & <- & Hi); apply in_seq in Hi; lia.
  - intros Hz; exists (Z.to_nat (z - a)); split; [lia|].
    apply in_seq; lia.
Qed.

Lemma In_region_points r p : In p (region_points r) <-> containsPoint r p = true.
Proof.
  destruct p as [x y]; unfold region_points; rewrite in_flat_map, containsPoint_iff.
  simpl fst; simpl snd; split.
  - intros (x' & Hx & Hy); apply in_map_iff in Hy as (y' & [=] & Hy); subst.
    rewrite In_zrange in Hx, Hy; lia.
  - intros [Hx Hy]; exists x; split; [apply In_zrange; lia|].
    apply in_map_iff; exists y; split; [reflexivity | apply In_zrange; lia].
Qed.

Fixpoint nodupb (l : list Point) : bool :=
  match l with
  | [] => true
  | x :: l' => negb (existsb (peqb x) l') && nodupb l'
  end.

Lemma nodupb_NoDup l : nodupb l = true -> NoDup l.
Proof.
  induction l as [|x l IH]; simpl; intros H; [constructor|].
  apply andb_true_iff in H as [H1 H2]; constructor; [|auto].
  intros Hin; apply existsb_peqb_In in Hin; rewrite Hin in H1; discriminate.
Qed.

Definition R3_10 : Region := mkRegion 3 3 10 10.

Lemma insert_all_3_10_root :
  option_map (fun t => is_full (root t))
    (run (new_tree R3_10) (map OpAdd (region_points (canonical R3_10)))) = Some false.
Proof. vm_compute; reflexivity. Qed.




(** ** Region objects and aliasing in [QuadTree.__init__]

    [QuadTree.__init__] takes the caller's [Region] object, copies it and
    assigns the bounds of the copy.  Here region objects live in a heap
    (a list indexed by references). *)
Module Aliasing.

Definition ref := nat.
Definition heap := list Region.

Definition load (h : heap) (a : ref) : option Region := nth_error h a.

Fixpoint store (h : heap) (a : ref) (r : Region) : heap :=
  match h, a with
  | [], _ => []
  | _ :: h', O => r :: h'
  | x :: h', S a' => x :: store h' a' r
  end.

(** Attribute assignments [obj.x_min = v] and so on. *)
Definition set_x_min (h : heap) (a : ref) (v : Z) : heap :=
  match load h a with
  | Some r => store h a (mkRegion v (y_min r) (x_max r) (y_max r))
  | None => h
  end.
Definition set_y_min (h : heap) (a : ref) (v : Z) : heap :=
  match load h a with
  | Some r => store h a (mkRegion (x_min r) v (x_max r) (y_max r))
  | None => h
  end.
Definition set_x_max (h : heap) (a : ref) (v : Z) : heap :=
  match load h a with
  | Some r => store h a (mkRegion (x_min r) (y_min r) v (y_max r))
  | None => h
  end.
Definition set_y_max (h : heap) (a : ref) (v : Z) : heap :=
  match load h a with
  | Some r => store h a (mkRegion (x_min r) (y_min r) (x_max r) v)
  | None => h
  end.

(** Modelled from the spec: [Region.copy] ([adk.region] is not part of the
    sources): a new region object with the same four bounds. *)
Definition copy (h : heap) (a : ref) : option (heap * ref) :=
  match load h a with
  | Some r => Some (h ++ [r], length h)
  | None => None
  end.

Record TreeObj := mkTreeObj { troot : slot; tregion_ref : ref }.

(** [QuadTree.__init__(region)] on the object at [a]. *)
Definition init (h : heap) (a : ref) : option (heap * TreeObj) :=
  match copy h a with
  | None => None
  | Some (h1, b) =>
      match load h1 b with
      | None => None
      | Some r =>
          let xmin2k := smaller2k (x_min r) in
          let ymin2k := smaller2k (y_min r) in
          let xmax2k := larger2k (x_max r) in
          let ymax2k := larger2k (y_max r) in
          let lo := Z.min xmin2k ymin2k in
          let hi := Z.max xmax2k ymax2k in
          let h2 := set_x_min h1 b lo in
          let h3 := set_y_min h2 b lo in
          let h4 := set_x_max h3 b hi in
          let h5 := set_y_max h4 b hi in
          Some (h5, mkTreeObj Empty b)
      end
  end.

Lemma load_store_same h a r x :
  load h a = Some x -> load (store h a r) a = Some r.
Proof.
  unfold load; revert a; induction h as [|y h IH]; intros [|a] H; simpl in *;
    try discriminate; auto.
Qed.

Lemma load_store_other h a b r :
  a <> b -> load (store h a r) b = load h b.
Proof.
  unfold load; revert a b; induction h as [|y h IH]; intros [|a] [|b] H; simpl;
    auto; congruence || (apply IH; congruence).
Qed.

Lemma load_set_other (set : heap -> ref -> Z -> heap) h a b v :
  (set = set_x_min \/ set = set_y_min \/ set = set_x_max \/ set = set_y_max) ->
  a <> b -> load (set h a v) b = load h b.
Proof.
  intros Hs Hne.
  destruct Hs as [-> | [-> | [-> | ->]]];
    unfold set_x_min, set_y_min, set_x_max, set_y_max;
    destruct (load h a); auto; apply load_store_other; auto.
Qed.

Lemma load_app_new h r : load (h ++ [r]) (length h) = Some r.
Proof. unfold load; rewrite nth_error_app2, Nat.sub_diag by lia; reflexivity. Qed.

Lemma load_app_old h r a x : load h a = Some x -> load (h ++ [r]) a = Some x.
Proof.
  unfold load; intros H.
  assert (a < length h)%nat by (apply nth_error_Some; congruence).
  rewrite nth_error_app1 by lia; exact H.
Qed.

Lemma load_lt h a x : load h a = Some x -> (a < length h)%nat.
Proof. unfold load; intros H; apply nth_error_Some; congruence. Qed.

Lemma load_set_x_min h b v :
  load (set_x_min h b v) b =
  option_map (fun r => mkRegion v (y_min r) (x_max r) (y_max r)) (load h b).
Proof.
  unfold set_x_min; destruct (load h b) eqn:E; simpl; [|exact E].
  eapply load_store_same; exact E.
Qed.

Lemma load_set_y_min h b v :
  load (set_y_min h b v) b =
  option_map (fun r => mkRegion (x_min r) v (x_max r) (y_max r)) (load h b).
Proof.
  unfold set_y_min; destruct (load h b) eqn:E; simpl; [|exact E].
  eapply load_store_same; exact E.
Qed.

Lemma load_set_x_max h b v :
  load (set_x_max h b v) b =
  option_map (fun r => mkRegion (x_min r) (y_min r) v (y_max r)) (load h b).
Proof.
  unfold set_x_max; destruct (load h b) eqn:E; simpl; [|exact E].
  eapply load_store_same; exact E.
Qed.

Lemma load_set_y_max h b v :
  load (set_y_max h b v) b =
  option_map (fun r => mkRegion (x_min r) (y_min r) (x_max r) v) (load h b).
Proof.
  unfold set_y_max; destruct (load h b) eqn:E; simpl; [|exact E].
  eapply load_store_same; exact E.
Qed.

(** C10: [QuadTree(region)] leaves the caller's region object as it was:
    the tree's region is a fresh object, distinct from the caller's, which
    holds the canonical bounds, while the caller's object keeps its four
    original bounds. *)
Theorem init_keeps_caller_region h a r :
  load h a = Some r ->
  exists h' t, init h a = Some (h', t) /\
    load h' a = Some r /\ tregion_ref t <> a /\
    load h' (tregion_ref t) = Some (canonical r).
Proof.
  intros H.
  pose proof (load_lt h a r H) as Hlt.
  unfold init, copy; rewrite H, load_app_new.
  eexists; eexists; split; [reflexivity|]; cbn [tregion_ref].
  assert (Hne : a <> length h) by lia.
  split; [|split; [lia|]].
  - rewrite !load_set_other by (auto 6 || lia).
    apply load_app_old; exact H.
  - rewrite load_set_y_max, load_set_x_max, load_set_y_min, load_set_x_min,
      load_app_new.
    reflexivity.
Qed.

Lemma init_keeps_caller_region_witness :
  load [mkRegion 3 3 10 10] 0%nat = Some (mkRegion 3 3 10 10) /\
  exists h' t, init [mkRegion 3 3 10 10] 0%nat = Some (h', t) /\
    load h' 0%nat = Some (mkRegion 3 3 10 10) /\ tregion_ref t <> 0%nat /\
    load h' (tregion_ref t) = Some (mkRegion 2 2 16 16).
Proof.
  assert (H : load [mkRegion 3 3 10 10] 0%nat = Some (mkRegion 3 3 10 10)) by reflexivity.
  split; [exact H|].
  exact (init_keeps_caller_region [mkRegion 3 3 10 10] 0%nat (mkRegion 3 3 10 10) H).
Defined.

End Aliasing.

(** ** Further properties of [QuadNode] and [QuadTree] *)

(** A node with [full = False] over a point region keeps its [NE] child.
    Only a root can be such a node: [QuadTree.add] creates the root with
    [full = False] and [QuadNode.add] then fills its [NE] slot, the only
    quadrant of a point region. *)
Fixpoint pinv (n : slot) : Prop :=
  match n with
  | Empty => True
  | Node r ne nw sw se f =>
      (f = false -> isPoint r = true -> ne <> Empty) /\
      pinv ne /\ pinv nw /\ pinv sw /\ pinv se
  end.

Definition kids_pinv (n : slot) : Prop :=
  match n with
  | Empty => True
  | Node _ ne nw sw se _ => forall q, pinv (pick q ne nw sw se)
  end.

(** The tree invariant kept by every call that returns. *)
Definition good (t : QuadTree) : Prop := wf_tree t /\ pinv (root t).

(** Membership as a set: [add] inserts a point of the region [R], [remove]
    deletes a point. *)
Definition set_step (R : Region) (m : Point -> bool) (o : Op) : Point -> bool :=
  match o with
  | OpAdd q => fun p => m p || (containsPoint R q && peqb p q)
  | OpRemove q => fun p => m p && negb (peqb p q)
  end.

Definition set_run (R : Region) (m : Point -> bool) (ops : list Op) : Point -> bool :=
  fold_left (set_step R) ops m.

Lemma corner_in r : isPoint r = true -> containsPoint r (x_min r, y_min r) = true.
Proof.
  unfold isPoint; rewrite andb_true_iff, !Z.eqb_eq, containsPoint_iff; simpl; lia.
Qed.

(** In a point region, [origin] is the point itself: it lies in [NE]. *)
Lemma point_quadrant r pt :
  isPoint r = true -> containsPoint r pt = true -> quadrant r pt = NE.
Proof.
  unfold isPoint; rewrite andb_true_iff, !Z.eqb_eq, containsPoint_iff.
  intros [Hx Hy] Hin; unfold quadrant, origin; cbn [fst snd].
  rewrite <- Hx, <- Hy.
  replace (x_min r + 1 - x_min r) with 1 by lia.
  replace (y_min r + 1 - y_min r) with 1 by lia.
  change (1 / 2) with 0; rewrite !Z.add_0_r.
  destruct (Z.geb_spec (fst pt) (x_min r)); [|lia].
  destruct (Z.geb_spec (snd pt) (y_min r)); [reflexivity | lia].
Qed.

Lemma point_sub r : isPoint r = true -> subregion r NE = r.
Proof.
  destruct r as [a b c d]; unfold isPoint; cbn [x_min y_min x_max y_max].
  rewrite andb_true_iff, !Z.eqb_eq; intros [<- <-].
  unfold subregion, origin; cbn [x_min y_min x_max y_max].
  replace (a + 1 - a) with 1 by lia; replace (b + 1 - b) with 1 by lia.
  change (1 / 2) with 0; rewrite !Z.add_0_r; reflexivity.
Qed.

Lemma region_points_point r :
  isPoint r = true -> region_points r = [(x_min r, y_min r)].
Proof.
  destruct r as [a b c d]; unfold isPoint; cbn [x_min y_min x_max y_max].
  rewrite andb_true_iff, !Z.eqb_eq; intros [<- <-].
  unfold region_points, zrange; cbn [x_min y_min x_max y_max].
  replace (a + 1 - a) with 1 by lia; replace (b + 1 - b) with 1 by lia.
  simpl; rewrite !Z.add_0_r; reflexivity.
Qed.

Lemma collapse_node_with_ne r q c ne nw sw se f :
  collapse (node_with r q c ne nw sw se f) <> Empty.
Proof.
  destruct q; cbn [node_with collapse]; destruct (childrenFull _ _ _ _);
    unfold leaf; discriminate.
Qed.

Lemma node_with_ne r q c ne nw sw se f : node_with r q c ne nw sw se f <> Empty.
Proof. destruct q; discriminate. Qed.

Lemma add_ne n pt n' b : add n pt = Some (n', b) -> n' <> Empty.
Proof.
  destruct n as [|r a b0 c d f]; [discriminate|].
  rewrite add_Node; intros H.
  destruct (pick (quadrant r pt) a b0 c d).
  - destruct (new_child _ pt); [|discriminate].
    injection H as <- _; apply collapse_node_with_ne.
  - revert H; destruct (add _ pt) as [[c' []]|]; intros H; [| |discriminate];
      injection H as <- _; [apply collapse_node_with_ne | apply node_with_ne].
Qed.

Lemma pinv_Node r ne nw sw se f :
  pinv (Node r ne nw sw se f) <->
  (f = false -> isPoint r = true -> ne <> Empty) /\ forall q, pinv (pick q ne nw sw se).
Proof.
  cbn [pinv]; split.
  - intros (H & ? & ? & ? & ?); split; [exact H|]; intros q; destruct q; assumption.
  - intros [H Hq]; pose proof (Hq NE); pose proof (Hq NW); pose proof (Hq SW);
      pose proof (Hq SE); cbn [pick] in *; tauto.
Qed.

Lemma pinv_leaf r : pinv (leaf r).
Proof. cbn [pinv leaf]; split; [intros H; discriminate H | tauto]. Qed.

Lemma pinv_kids n : pinv n -> kids_pinv n.
Proof.
  destruct n as [|r a b c d f]; [intros; exact I|].
  intros H; apply pinv_Node in H; exact (proj2 H).
Qed.

Lemma pinv_collapse n : pinv n -> pinv (collapse n).
Proof.
  destruct n as [|r a b c d f]; [auto|].
  cbn [collapse]; destruct (childrenFull _ _ _ _); [intros; apply pinv_leaf | auto].
Qed.

(** The node after [self.children[q] = c], [c] present, [q] the quadrant
    of a point of its region. *)
Lemma pinv_node_with r q c ne nw sw se f :
  (isPoint r = true -> q = NE) -> c <> Empty -> pinv c ->
  (forall q', pinv (pick q' ne nw sw se)) ->
  pinv (node_with r q c ne nw sw se f).
Proof.
  intros Hq Hc Hpc Hk; rewrite node_with_upd.
  set (g := upd q c ne nw sw se).
  apply pinv_Node; split.
  - intros _ Hp; subst g; rewrite (Hq Hp); exact Hc.
  - intros q'; rewrite pick_gen; subst g; unfold upd.
    destruct (qeqb q q'); [exact Hpc | apply Hk].
Qed.

Lemma pinv_prune_with r q c ne nw sw se f :
  isPoint r = false -> pinv c -> (forall q', pinv (pick q' ne nw sw se)) ->
  pinv (prune (node_with r q c ne nw sw se f)).
Proof.
  intros Hp Hpc Hk; rewrite node_with_upd.
  set (g := upd q c ne nw sw se).
  cbn [prune]; destruct (childrenNull _ _ _ _); [exact I|].
  apply pinv_Node; split; [intros _ H; congruence|].
  intros q'; rewrite pick_gen; subst g; unfold upd.
  destruct (qeqb q q'); [exact Hpc | apply Hk].
Qed.

Lemma add_fresh_pinv fuel : forall r pt c b,
  containsPoint r pt = true -> add_fresh fuel r pt = Some (c, b) ->
  pinv c /\ c <> Empty.
Proof.
  induction fuel as [|fuel IH]; intros r pt c b Hin H; [discriminate|].
  cbn [add_fresh] in H.
  assert (Hch : forall c0,
    (if isPoint (subregion r (quadrant r pt)) then
       Some (leaf (subregion r (quadrant r pt)))
     else option_map fst (add_fresh fuel (subregion r (quadrant r pt)) pt)) = Some c0 ->
    pinv c0 /\ c0 <> Empty).
  { intros c0; destruct (isPoint _).
    - intros [= <-]; split; [apply pinv_leaf | unfold leaf; discriminate].
    - destruct (add_fresh fuel _ pt) as [[c1 b1]|] eqn:E; [|discriminate].
      intros [= <-]; apply (IH _ _ _ _ (sub_of_quadrant r pt Hin) E). }
  destruct (if isPoint (subregion r (quadrant r pt)) then
              Some (leaf (subregion r (quadrant r pt)))
            else option_map fst (add_fresh fuel (subregion r (quadrant r pt)) pt))
    as [c0|] eqn:E0; [|discriminate].
  injection H as <- _.
  destruct (Hch c0 eq_refl) as [Hp Hn].
  split; [|apply collapse_node_with_ne].
  apply pinv_collapse, pinv_node_with; auto.
  - intros Hpt; apply point_quadrant; assumption.
  - intros q'; rewrite pick_Empty; exact I.
Qed.

Lemma new_child_pinv sr pt c :
  containsPoint sr pt = true -> new_child sr pt = Some c -> pinv c /\ c <> Empty.
Proof.
  intros Hin; unfold new_child.
  destruct (isPoint sr).
  - intros [= <-]; split; [apply pinv_leaf | unfold leaf; discriminate].
  - destruct (add_fresh (rfuel sr) sr pt) as [[c1 b1]|] eqn:E; [|discriminate].
    intros [= <-]; apply (add_fresh_pinv _ _ _ _ _ Hin E).
Qed.

Lemma add_pinv n : forall r pt n' b,
  wf n -> at_region n r -> containsPoint r pt = true -> kids_pinv n ->
  add n pt = Some (n', b) -> pinv n'.
Proof.
  induction n as [|r0 a IHa b0 IHb c IHc d IHd f]; intros r pt n' b Hwf Hat Hin Hk H;
    [discriminate|].
  simpl in Hat; subst r0.
  assert (IH : forall q r' n1 b1, wf (pick q a b0 c d) ->
            at_region (pick q a b0 c d) r' -> containsPoint r' pt = true ->
            kids_pinv (pick q a b0 c d) ->
            add (pick q a b0 c d) pt = Some (n1, b1) -> pinv n1)
    by (destruct q; simpl; eauto).
  pose proof (sub_of_quadrant r pt Hin) as Hsr.
  pose proof (proj1 (wf_Node r a b0 c d f) Hwf (quadrant r pt)) as [Hat' Hwf'].
  assert (Hq : isPoint r = true -> quadrant r pt = NE)
    by (intros Hp; apply point_quadrant; assumption).
  cbn [kids_pinv] in Hk.
  pose proof (Hk (quadrant r pt)) as Hkq.
  rewrite add_Node in H.
  destruct (pick (quadrant r pt) a b0 c d) eqn:Ech.
  - destruct (new_child _ pt) as [c0|] eqn:E; [|discriminate].
    injection H as <- _.
    destruct (new_child_pinv _ _ _ Hsr E).
    apply pinv_collapse, pinv_node_with; auto.
  - rewrite <- Ech in H, Hat', Hwf', Hkq.
    destruct (add (pick (quadrant r pt) a b0 c d) pt) as [[c' b1]|] eqn:E;
      [|discriminate].
    assert (Hc' : pinv c') by exact (IH _ _ _ _ Hwf' Hat' Hsr (pinv_kids _ Hkq) E).
    pose proof (add_ne _ _ _ _ E).
    destruct b1; injection H as <- _; [apply pinv_collapse|];
      apply pinv_node_with; auto.
Qed.

Lemma remove_full_pinv fuel : forall r pt s b,
  remove_full fuel r pt = Some (s, b) -> pinv s.
Proof.
  induction fuel as [|fuel IH]; intros r pt s b H; [discriminate|].
  cbn [remove_full] in H.
  destruct (isPoint r) eqn:Hp; [injection H as <- _; exact I|].
  destruct (remove_full fuel (subregion r (quadrant r pt)) pt) as [[c u]|] eqn:E;
    [|discriminate].
  injection H as <- _.
  apply pinv_prune_with; [exact Hp | apply (IH _ _ _ _ E) |].
  intros q'; rewrite pick_subdivided; apply pinv_leaf.
Qed.

Lemma remove_pinv n : forall pt s b, pinv n -> remove n pt = Some (s, b) -> pinv s.
Proof.
  induction n as [|r a IHa b0 IHb c IHc d IHd f]; intros pt s b Hp H; [discriminate|].
  assert (IH : forall q s' b', pinv (pick q a b0 c d) ->
            remove (pick q a b0 c d) pt = Some (s', b') -> pinv s')
    by (destruct q; simpl; eauto).
  apply pinv_Node in Hp as [_ Hk].
  rewrite remove_Node in H.
  destruct (isPoint r) eqn:Hpt; [injection H as <- _; exact I|].
  destruct f.
  - destruct (remove_full _ _ pt) as [[c0 u]|] eqn:E; [|discriminate].
    injection H as <- _.
    apply pinv_prune_with; [exact Hpt | apply (remove_full_pinv _ _ _ _ _ E) |].
    intros q'; rewrite pick_subdivided; apply pinv_leaf.
  - destruct (pick (quadrant r pt) a b0 c d) eqn:Ech; [discriminate|].
    rewrite <- Ech in H.
    destruct (remove (pick (quadrant r pt) a b0 c d) pt) as [[c0 u]|] eqn:E;
      [|discriminate].
    injection H as <- _.
    apply pinv_prune_with; [exact Hpt | apply (IH _ _ _ (Hk _) E) | exact Hk].
Qed.

(** A node over a point region holds its point. *)
Lemma walk_point m : forall r,
  wf m -> pinv m -> at_region m r -> m <> Empty -> isPoint r = true ->
  walk m (x_min r, y_min r) = true.
Proof.
  induction m as [|r0 a IHa b IHb c IHc d IHd f]; intros r Hwf Hp Hat Hne Hpt;
    [congruence|].
  simpl in Hat; subst r0.
  destruct f; [reflexivity|].
  apply pinv_Node in Hp as [Hne' Hk].
  specialize (Hne' eq_refl Hpt).
  pose proof (proj1 (wf_Node r a b c d false) Hwf NE) as [Hat' Hwf'].
  cbn [pick] in Hat', Hwf'.
  rewrite point_sub in Hat' by exact Hpt.
  rewrite walk_Node, (point_quadrant r _ Hpt (corner_in r Hpt)); cbn [orb pick].
  apply IHa; auto.
  exact (Hk NE).
Qed.

(** [QuadNode.remove] of a point of the region that the node does not hold
    reaches a [None] child slot. *)
Lemma remove_absent_none n : forall r pt,
  wf n -> pinv n -> at_region n r -> n <> Empty -> containsPoint r pt = true ->
  walk n pt = false -> remove n pt = None.
Proof.
  induction n as [|r0 a IHa b IHb c IHc d IHd f]; intros r pt Hwf Hp Hat Hne Hin Hw;
    [congruence|].
  simpl in Hat; subst r0.
  assert (IH : forall q r', wf (pick q a b c d) -> pinv (pick q a b c d) ->
            at_region (pick q a b c d) r' -> pick q a b c d <> Empty ->
            containsPoint r' pt = true -> walk (pick q a b c d) pt = false ->
            remove (pick q a b c d) pt = None)
    by (destruct q; simpl; eauto).
  destruct f; [discriminate|].
  rewrite remove_Node.
  destruct (isPoint r) eqn:Hpt.
  - rewrite <- (point_region_unique r _ _ Hpt (corner_in r Hpt) Hin) in Hw.
    pose proof (walk_point (Node r a b c d false) r Hwf Hp eq_refl
                  ltac:(discriminate) Hpt); congruence.
  - pose proof (proj1 (wf_Node r a b c d false) Hwf (quadrant r pt)) as [Hat' Hwf'].
    pose proof (proj2 (proj1 (pinv_Node r a b c d false) Hp) (quadrant r pt)) as Hp'.
    rewrite walk_Node in Hw; cbn [orb] in Hw.
    destruct (pick (quadrant r pt) a b c d) eqn:Ech; [reflexivity|].
    rewrite <- Ech in Hat', Hwf', Hp', Hw |- *.
    rewrite (IH _ _ Hwf' Hp' Hat');
      [destruct (pick _ a b c d); reflexivity | rewrite Ech; discriminate
      | apply sub_of_quadrant, Hin | exact Hw].
Qed.

Lemma In_iter_Node p r a b c d f :
  In p (iter_points (Node r a b c d f)) <->
  In p (node_points (Node r a b c d f)) \/ exists q, In p (iter_points (pick q a b c d)).
Proof.
  unfold iter_points; cbn [preorder flat_map].
  rewrite in_app_iff, !flat_map_app, !in_app_iff; split.
  - intros [H | [H | [H | [H | H]]]]; [left; exact H | right ..].
    + exists NE; exact H.
    + exists NW; exact H.
    + exists SW; exact H.
    + exists SE; exact H.
  - intros [H | [q H]]; [left; exact H | right; destruct q; cbn [pick] in H; tauto].
Qed.

(** What the traversal of a node yields: exactly the points of its region
    that the [__contains__] loop finds below it. *)
Lemma iter_walk n : forall r p,
  wf n -> pinv n -> at_region n r ->
  (In p (iter_points n) <-> containsPoint r p = true /\ walk n p = true).
Proof.
  induction n as [|r0 a IHa b IHb c IHc d IHd f]; intros r p Hwf Hp Hat.
  - cbn; split; [intros [] | intros [_ H]; discriminate].
  - simpl in Hat; subst r0.
    assert (IH : forall q r', wf (pick q a b c d) -> pinv (pick q a b c d) ->
              at_region (pick q a b c d) r' ->
              (In p (iter_points (pick q a b c d)) <->
               containsPoint r' p = true /\ walk (pick q a b c d) p = true))
      by (destruct q; simpl; eauto).
    pose proof Hp as Hp0.
    apply pinv_Node in Hp as [Hpt Hk].
    rewrite In_iter_Node; split.
    + intros [H | [q H]].
      * cbn [node_points] in H; destruct f.
        -- apply In_region_points in H; split; [exact H | reflexivity].
        -- destruct (isPoint r) eqn:Hpr; [|destruct H].
           destruct H as [<- | []].
           split; [apply corner_in, Hpr|].
           apply (walk_point _ r Hwf Hp0 eq_refl); [discriminate | exact Hpr].
      * pose proof (proj1 (wf_Node r a b c d f) Hwf q) as [Hat' Hwf'].
        apply (IH q _ Hwf' (Hk q) Hat') in H as [Hin Hw].
        destruct (quadrant_of_sub r q p Hin) as [Hin' Hq].
        split; [exact Hin'|]; rewrite walk_Node, Hq, Hw, orb_true_r; reflexivity.
    + intros [Hin Hw].
      destruct f; [left; apply In_region_points, Hin|].
      right; exists (quadrant r p).
      pose proof (proj1 (wf_Node r a b c d false) Hwf (quadrant r p)) as [Hat' Hwf'].
      rewrite walk_Node in Hw.
      apply (IH _ _ Hwf' (Hk _) Hat'); split; [apply sub_of_quadrant, Hin | exact Hw].
Qed.

(** *** The invariant at the tree level *)

Lemma good_new req : good (new_tree req).
Proof. split; [split|]; simpl; auto. Qed.

Lemma tree_add_good t p t' b :
  good t -> tree_add t p = Some (t', b) -> good t'.
Proof.
  intros [Hwf Hp] H.
  split; [exact (proj1 (tree_add_wf t p t' b Hwf H))|].
  destruct Hwf as [Hwf Hat].
  unfold tree_add in H.
  destruct (containsPoint (tregion t) p) eqn:Hin; cbn [negb] in H;
    [|injection H as <- _; exact Hp].
  destruct (root t) as [|r a b0 c d f] eqn:Er; cbv beta iota zeta in H;
    (destruct (add _ p) as [[n' b1]|] eqn:E; [|discriminate]);
    injection H as <- _; cbn [root].
  - apply (add_pinv _ (tregion t) p n' b1 (wf_fresh _) eq_refl Hin); [|exact E].
    intros q; rewrite pick_Empty; exact I.
  - exact (add_pinv _ (tregion t) p n' b1 Hwf Hat Hin (pinv_kids _ Hp) E).
Qed.

Lemma tree_remove_good t p t' b :
  good t -> tree_remove t p = Some (t', b) -> good t'.
Proof.
  intros [Hwf Hp] H.
  split; [exact (proj1 (tree_remove_wf t p t' b Hwf H))|].
  unfold tree_remove in H.
  destruct (root t) as [|r a b0 c d f] eqn:Er;
    [injection H as <- _; rewrite Er; exact I|].
  destruct (negb _); [injection H as <- _; rewrite Er; exact Hp|].
  destruct (remove _ p) as [[s u]|] eqn:E; [|discriminate].
  injection H as <- _; exact (remove_pinv _ _ _ _ Hp E).
Qed.

Lemma reachable_good t : reachable t -> good t.
Proof.
  induction 1 as [req | t p t' b _ IH H | t p t' b _ IH H].
  - apply good_new.
  - exact (tree_add_good t p t' b IH H).
  - exact (tree_remove_good t p t' b IH H).
Qed.

(** [QuadTree.add] inserts a point of the region into the membership. *)
Lemma tree_add_mem t q t' b :
  good t -> tree_add t q = Some (t', b) ->
  tregion t' = tregion t /\
  forall p, tree_contains t' p =
            tree_contains t p || (containsPoint (tregion t) q && peqb p q).
Proof.
  intros [Hwf _] H.
  destruct (containsPoint (tregion t) q) eqn:Hin.
  - destruct (tree_add_spec t q Hwf Hin) as (t1 & E & _ & Hr & Hw).
    rewrite E in H; injection H as <- _.
    split; [exact Hr|]; intros p.
    rewrite !tree_contains_walk, Hr.
    destruct (containsPoint (tregion t) p) eqn:Hp.
    + rewrite Hw by exact Hp; reflexivity.
    + destruct (peqb p q) eqn:Q; [apply peqb_iff in Q; subst; congruence | reflexivity].
  - unfold tree_add in H; rewrite Hin in H; injection H as <- _.
    split; [reflexivity|]; intros p; rewrite orb_false_r; reflexivity.
Qed.

(** [QuadTree.remove], when it returns, deletes the point from the
    membership. *)
Lemma tree_remove_mem t q t' b :
  good t -> tree_remove t q = Some (t', b) ->
  tregion t' = tregion t /\
  forall p, tree_contains t' p = tree_contains t p && negb (peqb p q).
Proof.
  intros [[Hwf Hat] Hp] H.
  unfold tree_remove in H.
  destruct (root t) as [|r a b0 c d f] eqn:Er.
  - injection H as <- _; split; [reflexivity|]; intros p.
    rewrite tree_contains_walk, Er; cbn [walk]; rewrite andb_false_r; reflexivity.
  - destruct (containsPoint (tregion t) q) eqn:Hin; cbn [negb] in H.
    + destruct (walk (Node r a b0 c d f) q) eqn:Hw.
      * destruct (remove_spec (Node r a b0 c d f) (tregion t) q Hwf Hat)
          as (s & E & _ & _ & Hs); [discriminate | exact Hin | exact Hw |].
        rewrite E in H; injection H as <- _; split; [reflexivity|]; intros p.
        rewrite !tree_contains_walk, Er; cbn [root tregion].
        destruct (containsPoint (tregion t) p) eqn:Hp'; [|reflexivity].
        rewrite Hs by exact Hp'; reflexivity.
      * rewrite (remove_absent_none _ (tregion t) q Hwf Hp Hat) in H;
          [discriminate | discriminate | exact Hin | exact Hw].
    + injection H as <- _; split; [reflexivity|]; intros p.
      rewrite tree_contains_walk.
      destruct (containsPoint (tregion t) p) eqn:Hp'; [|reflexivity].
      destruct (peqb p q) eqn:Q; [apply peqb_iff in Q; subst; congruence|].
      rewrite andb_true_r; reflexivity.
Qed.

Lemma tree_remove_present t p :
  good t -> tree_contains t p = true -> exists t', tree_remove t p = Some (t', true).
Proof.
  intros [[Hwf Hat] _] Hc.
  rewrite tree_contains_walk in Hc; apply andb_true_iff in Hc as [Hin Hw].
  unfold tree_remove.
  destruct (root t) as [|r a b c d f] eqn:Er; [discriminate|].
  destruct (remove_spec _ (tregion t) p Hwf Hat) as (s & E & _);
    [discriminate | exact Hin | exact Hw |].
  rewrite Hin; cbn [negb]; rewrite E; eexists; reflexivity.
Qed.

Lemma set_run_cons R m o ops :
  set_run R m (o :: ops) = set_run R (set_step R m o) ops.
Proof. reflexivity. Qed.

Lemma set_run_ext R ops : forall m m',
  (forall p, m p = m' p) -> forall p, set_run R m ops p = set_run R m' ops p.
Proof.
  induction ops as [|o ops IH]; intros m m' H p; [apply H|].
  rewrite !set_run_cons; apply IH.
  intros p'; destruct o; cbn [set_step]; rewrite H; reflexivity.
Qed.

Lemma run_good_mem ops : forall t t',
  good t -> run t ops = Some t' ->
  good t' /\ tregion t' = tregion t /\
  forall p, tree_contains t' p = set_run (tregion t) (tree_contains t) ops p.
Proof.
  induction ops as [|o ops IH]; intros t t' Hg H.
  - injection H as <-; split; [exact Hg|]; split; [reflexivity | reflexivity].
  - rewrite set_run_cons.
    destruct o as [q|q]; cbn [run step] in H.
    + destruct (tree_add t q) as [[t1 b]|] eqn:E; cbn [option_map fst] in H;
        [|discriminate].
      destruct (tree_add_mem t q t1 b Hg E) as [Hr Hm].
      destruct (IH t1 t' (tree_add_good t q t1 b Hg E) H) as (Hg' & Hr' & Hm').
      split; [exact Hg'|]; split; [congruence|].
      intros p; rewrite Hm', Hr; apply set_run_ext; exact Hm.
    + destruct (tree_remove t q) as [[t1 b]|] eqn:E; cbn [option_map fst] in H;
        [|discriminate].
      destruct (tree_remove_mem t q t1 b Hg E) as [Hr Hm].
      destruct (IH t1 t' (tree_remove_good t q t1 b Hg E) H) as (Hg' & Hr' & Hm').
      split; [exact Hg'|]; split; [congruence|].
      intros p; rewrite Hm', Hr; apply set_run_ext; exact Hm.
Qed.

(** *** The compression invariant, call by call *)

Lemma compressed_Node r ne nw sw se f :
  compressed (Node r ne nw sw se f) = true <->
  (f = true -> childrenNull ne nw sw se = true) /\
  forall q, compressed (pick q ne nw sw se) = true.
Proof.
  cbn [compressed]; rewrite !andb_true_iff; split.
  - intros ((((H & ?) & ?) & ?) & ?); split.
    + intros ->; exact H.
    + intros q; destruct q; assumption.
  - intros [H Hq]; pose proof (Hq NE); pose proof (Hq NW); pose proof (Hq SW);
      pose proof (Hq SE); cbn [pick] in *.
    refine (conj (conj (conj (conj _ _) _) _) _); auto.
    destruct f; auto.
Qed.

Lemma compressed_leaf r : compressed (leaf r) = true.
Proof. reflexivity. Qed.

Lemma compressed_node_with r q c ne nw sw se :
  compressed c = true -> (forall q', compressed (pick q' ne nw sw se) = true) ->
  compressed (node_with r q c ne nw sw se false) = true.
Proof.
  intros Hc Hk; rewrite node_with_upd.
  set (g := upd q c ne nw sw se).
  apply compressed_Node; split; [intros H; discriminate H|].
  intros q'; rewrite pick_gen; subst g; unfold upd.
  destruct (qeqb q q'); [exact Hc | apply Hk].
Qed.

Lemma compressed_collapse n : compressed n = true -> compressed (collapse n) = true.
Proof.
  destruct n as [|r a b c d f]; [auto|].
  cbn [collapse]; destruct (childrenFull _ _ _ _); [intros; reflexivity | auto].
Qed.

Lemma compressed_prune n : compressed n = true -> compressed (prune n) = true.
Proof.
  destruct n as [|r a b c d f]; [auto|].
  cbn [prune]; destruct (childrenNull _ _ _ _); [intros; reflexivity | auto].
Qed.

Lemma add_fresh_compressed fuel : forall r pt c b,
  add_fresh fuel r pt = Some (c, b) -> compressed c = true.
Proof.
  induction fuel as [|fuel IH]; intros r pt c b H; [discriminate|].
  cbn [add_fresh] in H.
  assert (Hch : forall c0,
    (if isPoint (subregion r (quadrant r pt)) then
       Some (leaf (subregion r (quadrant r pt)))
     else option_map fst (add_fresh fuel (subregion r (quadrant r pt)) pt)) = Some c0 ->
    compressed c0 = true).
  { intros c0; destruct (isPoint _).
    - intros [= <-]; apply compressed_leaf.
    - destruct (add_fresh fuel _ pt) as [[c1 b1]|] eqn:E; [|discriminate].
      intros [= <-]; apply (IH _ _ _ _ E). }
  destruct (if isPoint (subregion r (quadrant r pt)) then
              Some (leaf (subregion r (quadrant r pt)))
            else option_map fst (add_fresh fuel (subregion r (quadrant r pt)) pt))
    as [c0|] eqn:E0; [|discriminate].
  injection H as <- _.
  apply compressed_collapse, compressed_node_with; [exact (Hch c0 eq_refl)|].
  intros q'; rewrite pick_Empty; reflexivity.
Qed.

Lemma new_child_compressed sr pt c : new_child sr pt = Some c -> compressed c = true.
Proof.
  unfold new_child; destruct (isPoint sr); [intros [= <-]; apply compressed_leaf|].
  destruct (add_fresh (rfuel sr) sr pt) as [[c1 b1]|] eqn:E; [|discriminate].
  intros [= <-]; apply (add_fresh_compressed _ _ _ _ _ E).
Qed.

(** [QuadNode.add] of a point the node does not hold goes down through
    non-full nodes only, and keeps the compression invariant. *)
Lemma add_compressed n : forall pt n' b,
  compressed n = true -> walk n pt = false -> add n pt = Some (n', b) ->
  compressed n' = true.
Proof.
  induction n as [|r a IHa b0 IHb c IHc d IHd f]; intros pt n' b Hc Hw H;
    [discriminate|].
  assert (IH : forall q n1 b1, compressed (pick q a b0 c d) = true ->
            walk (pick q a b0 c d) pt = false ->
            add (pick q a b0 c d) pt = Some (n1, b1) -> compressed n1 = true)
    by (destruct q; simpl; eauto).
  destruct f; [discriminate|].
  apply compressed_Node in Hc as [_ Hk].
  rewrite walk_Node in Hw; cbn [orb] in Hw.
  rewrite add_Node in H.
  destruct (pick (quadrant r pt) a b0 c d) eqn:Ech.
  - destruct (new_child _ pt) as [c0|] eqn:E; [|discriminate].
    injection H as <- _.
    apply compressed_collapse, compressed_node_with; auto.
    exact (new_child_compressed _ _ _ E).
  - rewrite <- Ech in H, Hw.
    destruct (add (pick (quadrant r pt) a b0 c d) pt) as [[c' b1]|] eqn:E;
      [|discriminate].
    pose proof (IH _ _ _ (Hk _) Hw E).
    destruct b1; injection H as <- _; [apply compressed_collapse|];
      apply compressed_node_with; auto.
Qed.

Lemma remove_full_compressed fuel : forall r pt s b,
  remove_full fuel r pt = Some (s, b) -> compressed s = true.
Proof.
  induction fuel as [|fuel IH]; intros r pt s b H; [discriminate|].
  cbn [remove_full] in H.
  destruct (isPoint r); [injection H as <- _; reflexivity|].
  destruct (remove_full fuel (subregion r (quadrant r pt)) pt) as [[c u]|] eqn:E;
    [|discriminate].
  injection H as <- _.
  apply compressed_prune, compressed_node_with; [apply (IH _ _ _ _ E)|].
  intros q'; rewrite pick_subdivided; apply compressed_leaf.
Qed.

Lemma remove_compressed n : forall pt s b,
  compressed n = true -> remove n pt = Some (s, b) -> compressed s = true.
Proof.
  induction n as [|r a IHa b0 IHb c IHc d IHd f]; intros pt s b Hc H; [discriminate|].
  assert (IH : forall q s' b', compressed (pick q a b0 c d) = true ->
            remove (pick q a b0 c d) pt = Some (s', b') -> compressed s' = true)
    by (destruct q; simpl; eauto).
  apply compressed_Node in Hc as [_ Hk].
  rewrite remove_Node in H.
  destruct (isPoint r); [injection H as <- _; reflexivity|].
  destruct f.
  - destruct (remove_full _ _ pt) as [[c0 u]|] eqn:E; [|discriminate].
    injection H as <- _.
    apply compressed_prune, compressed_node_with;
      [apply (remove_full_compressed _ _ _ _ _ E)|].
    intros q'; rewrite pick_subdivided; apply compressed_leaf.
  - destruct (pick (quadrant r pt) a b0 c d) eqn:Ech; [discriminate|].
    rewrite <- Ech in H.
    destruct (remove (pick (quadrant r pt) a b0 c d) pt) as [[c0 u]|] eqn:E;
      [|discriminate].
    injection H as <- _.
    apply compressed_prune, compressed_node_with; [apply (IH _ _ _ (Hk _) E) | exact Hk].
Qed.

(** *** [smaller2k] and [larger2k] *)

Lemma log2_bounds n : 0 < n -> 2 ^ Z.log2 n <= n < 2 * 2 ^ Z.log2 n.
Proof.
  intros H; destruct (Z.log2_spec n H) as [H1 H2].
  rewrite Z.pow_succ_r in H2 by (apply Z.log2_nonneg); lia.
Qed.

Lemma log2_up_bounds n : 0 < n -> n <= 2 ^ Z.log2_up n < 2 * n.
Proof.
  intros H; destruct (Z.eq_dec n 1) as [-> | Hn]; [simpl; lia|].
  destruct (Z.log2_up_spec n ltac:(lia)) as [H1 H2].
  assert (Hp : 0 < Z.log2_up n) by (apply Z.log2_up_pos; lia).
  assert (E : 2 ^ Z.log2_up n = 2 * 2 ^ Z.pred (Z.log2_up n)).
  { rewrite <- Z.pow_succ_r by lia; f_equal; lia. }
  lia.
Qed.

Lemma smaller2k_spec n :
  smaller2k n <= n /\ (0 < n -> n < 2 * smaller2k n) /\
  (n < 0 -> 2 * n < smaller2k n) /\
  (n <> 0 -> exists k, 0 <= k /\ Z.abs (smaller2k n) = 2 ^ k).
Proof.
  unfold smaller2k.
  destruct (Z.eqb_spec n 0) as [-> | H0].
  - split; [lia|]; split; [lia|]; split; [lia|]; intros H; exfalso; lia.
  - destruct (Z.ltb_spec n 0) as [Hn | Hn].
    + pose proof (log2_up_bounds (- n) ltac:(lia)).
      pose proof (Z.log2_up_nonneg (- n)).
      split; [lia|]; split; [lia|]; split; [lia|].
      intros _; exists (Z.log2_up (- n)); split; [lia|].
      rewrite Z.abs_opp, Z.abs_eq; [reflexivity | apply Z.pow_nonneg; lia].
    + pose proof (log2_bounds n ltac:(lia)).
      pose proof (Z.log2_nonneg n).
      split; [lia|]; split; [lia|]; split; [lia|].
      intros _; exists (Z.log2 n); split; [lia|].
      rewrite Z.abs_eq; [reflexivity | apply Z.pow_nonneg; lia].
Qed.

Lemma larger2k_spec n :
  n <= larger2k n /\ (0 < n -> larger2k n < 2 * n) /\
  (n < 0 -> 2 * larger2k n < n) /\
  (n <> 0 -> exists k, 0 <= k /\ Z.abs (larger2k n) = 2 ^ k).
Proof.
  unfold larger2k.
  destruct (Z.eqb_spec n 0) as [-> | H0].
  - split; [lia|]; split; [lia|]; split; [lia|]; intros H; exfalso; lia.
  - destruct (Z.ltb_spec n 0) as [Hn | Hn].
    + pose proof (log2_bounds (- n) ltac:(lia)).
      pose proof (Z.log2_nonneg (- n)).
      split; [lia|]; split; [lia|]; split; [lia|].
      intros _; exists (Z.log2 (- n)); split; [lia|].
      rewrite Z.abs_opp, Z.abs_eq; [reflexivity | apply Z.pow_nonneg; lia].
    + pose proof (log2_up_bounds n ltac:(lia)).
      pose proof (Z.log2_up_nonneg n).
      split; [lia|]; split; [lia|]; split; [lia|].
      intros _; exists (Z.log2_up n); split; [lia|].
      rewrite Z.abs_eq; [reflexivity | apply Z.pow_nonneg; lia].
Qed.

Lemma smaller2k_neg m : 0 < m -> smaller2k (- m) = - 2 ^ Z.log2_up m.
Proof.
  intros H; unfold smaller2k.
  destruct (Z.eqb_spec (- m) 0); [lia|].
  destruct (Z.ltb_spec (- m) 0); [|lia].
  rewrite Z.opp_involutive; reflexivity.
Qed.

Lemma smaller2k_pos m : 0 < m -> smaller2k m = 2 ^ Z.log2 m.
Proof.
  intros H; unfold smaller2k.
  destruct (Z.eqb_spec m 0); [lia|].
  destruct (Z.ltb_spec m 0); [lia | reflexivity].
Qed.

Lemma larger2k_neg m : 0 < m -> larger2k (- m) = - 2 ^ Z.log2 m.
Proof.
  intros H; unfold larger2k.
  destruct (Z.eqb_spec (- m) 0); [lia|].
  destruct (Z.ltb_spec (- m) 0); [|lia].
  rewrite Z.opp_involutive; reflexivity.
Qed.

Lemma larger2k_pos m : 0 < m -> larger2k m = 2 ^ Z.log2_up m.
Proof.
  intros H; unfold larger2k.
  destruct (Z.eqb_spec m 0); [lia|].
  destruct (Z.ltb_spec m 0); [lia | reflexivity].
Qed.

Lemma smaller2k_idem n : smaller2k (smaller2k n) = smaller2k n.
Proof.
  destruct (Z.lt_trichotomy n 0) as [H | [-> | H]].
  - replace n with (- - n) by lia; rewrite smaller2k_neg by lia.
    rewrite smaller2k_neg
      by (apply Z.pow_pos_nonneg; [lia | apply Z.log2_up_nonneg]).
    rewrite Z.log2_up_pow2 by apply Z.log2_up_nonneg; reflexivity.
  - reflexivity.
  - rewrite (smaller2k_pos n) by lia.
    rewrite smaller2k_pos by (apply Z.pow_pos_nonneg; [lia | apply Z.log2_nonneg]).
    rewrite Z.log2_pow2 by apply Z.log2_nonneg; reflexivity.
Qed.

Lemma larger2k_idem n : larger2k (larger2k n) = larger2k n.
Proof.
  destruct (Z.lt_trichotomy n 0) as [H | [-> | H]].
  - replace n with (- - n) by lia; rewrite larger2k_neg by lia.
    rewrite larger2k_neg
      by (apply Z.pow_pos_nonneg; [lia | apply Z.log2_nonneg]).
    rewrite Z.log2_pow2 by apply Z.log2_nonneg; reflexivity.
  - reflexivity.
  - rewrite (larger2k_pos n) by lia.
    rewrite larger2k_pos by (apply Z.pow_pos_nonneg; [lia | apply Z.log2_up_nonneg]).
    rewrite Z.log2_up_pow2 by apply Z.log2_up_nonneg; reflexivity.
Qed.

(** *** Properties of the public operations *)

(** In every reachable tree, [__iter__] yields a point exactly when
    [__contains__] reports it (full nodes, point nodes and the traversal
    order agree with the lookup loop). *)
Theorem iter_matches_contains t p :
  reachable t -> (In p (tree_iter t) <-> tree_contains t p = true).
Proof.
  intros Hr; destruct (reachable_good t Hr) as [[Hwf Hat] Hp].
  unfold tree_iter; rewrite tree_contains_walk, andb_true_iff.
  exact (iter_walk (root t) (tregion t) p Hwf Hp Hat).
Qed.

Lemma iter_matches_contains_witness :
  reachable t_one /\ (In (0, 0) (tree_iter t_one) <-> tree_contains t_one (0, 0) = true).
Proof.
  split; [exact t_one_reachable | exact (iter_matches_contains t_one (0, 0) t_one_reachable)].
Defined.

(** In every reachable tree with a root, [QuadTree.remove] of a point of the
    region that the tree does not hold faults: [QuadNode.remove] always
    reaches a [None] child slot. *)
Theorem remove_absent_in_region_faults t p :
  reachable t -> root t <> Empty -> containsPoint (tregion t) p = true ->
  tree_contains t p = false -> tree_remove t p = None.
Proof.
  intros Hr Hne Hin Hc.
  destruct (reachable_good t Hr) as [[Hwf Hat] Hp].
  rewrite tree_contains_walk, Hin in Hc; cbn [andb] in Hc.
  unfold tree_remove.
  destruct (root t) as [|r a b c d f] eqn:Er; [congruence|].
  rewrite Hin; cbn [negb].
  rewrite (remove_absent_none _ (tregion t) p Hwf Hp Hat Hne Hin Hc); reflexivity.
Qed.

Lemma remove_absent_in_region_faults_witness :
  reachable t_one /\ root t_one <> Empty /\ containsPoint (tregion t_one) (3, 5) = true /\
  tree_contains t_one (3, 5) = false /\ tree_remove t_one (3, 5) = None.
Proof.
  assert (H1 : root t_one <> Empty) by (vm_compute; discriminate).
  assert (H2 : containsPoint (tregion t_one) (3, 5) = true) by (vm_compute; reflexivity).
  assert (H3 : tree_contains t_one (3, 5) = false) by (vm_compute; reflexivity).
  split; [exact t_one_reachable|]; split; [exact H1|]; split; [exact H2|];
    split; [exact H3|].
  exact (remove_absent_in_region_faults t_one (3, 5) t_one_reachable H1 H2 H3).
Defined.

(** Whenever a sequence of [add] and [remove] calls on a new tree returns,
    [__contains__] afterwards is the set obtained by inserting each added
    point of the canonical region and deleting each removed point, in
    order. *)
Theorem run_membership req ops t :
  run (new_tree req) ops = Some t ->
  forall p, tree_contains t p = set_run (canonical req) (fun _ => false) ops p.
Proof.
  intros H p.
  destruct (run_good_mem ops (new_tree req) t (good_new req) H) as (_ & _ & Hm).
  rewrite Hm; apply set_run_ext.
  intros p0; unfold tree_contains; destruct (negb _); reflexivity.
Qed.

Definition ops_demo : list Op :=
  [OpAdd (1, 1); OpAdd (2, 3); OpAdd (9, 9); OpRemove (1, 1); OpAdd (5, 6)].

Lemma run_membership_witness :
  run (new_tree R8) ops_demo = Some (after (new_tree R8) ops_demo) /\
  tree_contains (after (new_tree R8) ops_demo) (2, 3) =
    set_run (canonical R8) (fun _ => false) ops_demo (2, 3).
Proof.
  assert (H : run (new_tree R8) ops_demo = Some (after (new_tree R8) ops_demo))
    by (vm_compute; reflexivity).
  split; [exact H | exact (run_membership R8 ops_demo _ H (2, 3))].
Defined.

(** In a reachable tree, adding a point of the region that is absent and
    then removing it both return [True] and restore the membership. *)
Theorem add_remove_roundtrip t p :
  reachable t -> containsPoint (tregion t) p = true -> tree_contains t p = false ->
  exists t1 t2, tree_add t p = Some (t1, true) /\ tree_remove t1 p = Some (t2, true) /\
    forall q, tree_contains t2 q = tree_contains t q.
Proof.
  intros Hr Hin Hc.
  pose proof (reachable_good t Hr) as Hg.
  destruct (tree_add_spec t p (proj1 Hg) Hin) as (t1 & E1 & _).
  pose proof (tree_add_good t p t1 true Hg E1) as Hg1.
  destruct (tree_add_mem t p t1 true Hg E1) as [_ Hm1].
  assert (Hc1 : tree_contains t1 p = true)
    by (rewrite Hm1, Hin, peqb_refl, Hc; reflexivity).
  destruct (tree_remove_present t1 p Hg1 Hc1) as (t2 & E2).
  destruct (tree_remove_mem t1 p t2 true Hg1 E2) as [_ Hm2].
  exists t1, t2; split; [exact E1|]; split; [exact E2|].
  intros q; rewrite Hm2, Hm1, Hin.
  destruct (peqb q p) eqn:Q; [apply peqb_iff in Q; subst; rewrite Hc; reflexivity|].
  cbn [andb negb]; rewrite orb_false_r, andb_true_r; reflexivity.
Qed.

Lemma add_remove_roundtrip_witness :
  reachable t_one /\ containsPoint (tregion t_one) (3, 5) = true /\
  tree_contains t_one (3, 5) = false /\
  exists t1 t2, tree_add t_one (3, 5) = Some (t1, true) /\
    tree_remove t1 (3, 5) = Some (t2, true).
Proof.
  assert (H2 : containsPoint (tregion t_one) (3, 5) = true) by (vm_compute; reflexivity).
  assert (H3 : tree_contains t_one (3, 5) = false) by (vm_compute; reflexivity).
  split; [exact t_one_reachable|]; split; [exact H2|]; split; [exact H3|].
  destruct (add_remove_roundtrip t_one (3, 5) t_one_reachable H2 H3)
    as (t1 & t2 & E1 & E2 & _).
  exists t1, t2; split; assumption.
Defined.

(** In a reachable tree, removing a present point and adding it back both
    return [True] and restore the membership. *)
Theorem remove_add_roundtrip t p :
  reachable t -> tree_contains t p = true ->
  exists t1 t2, tree_remove t p = Some (t1, true) /\ tree_add t1 p = Some (t2, true) /\
    forall q, tree_contains t2 q = tree_contains t q.
Proof.
  intros Hr Hc.
  pose proof (reachable_good t Hr) as Hg.
  assert (Hin : containsPoint (tregion t) p = true)
    by (rewrite tree_contains_walk in Hc; apply andb_true_iff in Hc; apply Hc).
  destruct (tree_remove_present t p Hg Hc) as (t1 & E1).
  pose proof (tree_remove_good t p t1 true Hg E1) as Hg1.
  destruct (tree_remove_mem t p t1 true Hg E1) as [Hr1 Hm1].
  assert (Hin1 : containsPoint (tregion t1) p = true) by (rewrite Hr1; exact Hin).
  destruct (tree_add_spec t1 p (proj1 Hg1) Hin1) as (t2 & E2 & _).
  destruct (tree_add_mem t1 p t2 true Hg1 E2) as [_ Hm2].
  exists t1, t2; split; [exact E1|]; split; [exact E2|].
  intros q; rewrite Hm2, Hm1, Hin1.
  destruct (peqb q p) eqn:Q; [apply peqb_iff in Q; subst; rewrite Hc, orb_true_r; reflexivity|].
  cbn [andb negb]; rewrite orb_false_r, andb_true_r; reflexivity.
Qed.

Lemma remove_add_roundtrip_witness :
  reachable t_one /\ tree_contains t_one (0, 0) = true /\
  exists t1 t2, tree_remove t_one (0, 0) = Some (t1, true) /\
    tree_add t1 (0, 0) = Some (t2, true).
Proof.
  assert (H : tree_contains t_one (0, 0) = true) by (vm_compute; reflexivity).
  split; [exact t_one_reachable|]; split; [exact H|].
  destruct (remove_add_roundtrip t_one (0, 0) t_one_reachable H)
    as (t1 & t2 & E1 & E2 & _).
  exists t1, t2; split; assumption.
Defined.

(** [QuadTree.add] of a point the tree does not hold keeps the compression
    invariant (a full node has no children). *)
Theorem add_absent_keeps_compressed t p t' b :
  compressed (root t) = true -> tree_contains t p = false ->
  tree_add t p = Some (t', b) -> compressed (root t') = true.
Proof.
  intros Hc Hm H; unfold tree_add in H.
  destruct (containsPoint (tregion t) p) eqn:Hin; cbn [negb] in H;
    [|injection H as <- _; exact Hc].
  rewrite tree_contains_walk, Hin in Hm; cbn [andb] in Hm.
  destruct (root t) as [|r a b0 c d f] eqn:Er; cbv beta iota zeta in H;
    (destruct (add _ p) as [[n' b1]|] eqn:E; [|discriminate]);
    injection H as <- _; cbn [root].
  - exact (add_compressed (Node (tregion t) Empty Empty Empty Empty false) p n' b1
             eq_refl (walk_fresh _ _) E).
  - exact (add_compressed _ p n' b1 Hc Hm E).
Qed.

Lemma add_absent_keeps_compressed_witness :
  compressed (root t_one) = true /\ tree_contains t_one (3, 5) = false /\
  tree_add t_one (3, 5) = Some (after t_one [OpAdd (3, 5)], true) /\
  compressed (root (after t_one [OpAdd (3, 5)])) = true.
Proof.
  assert (H1 : compressed (root t_one) = true) by (vm_compute; reflexivity).
  assert (H2 : tree_contains t_one (3, 5) = false) by (vm_compute; reflexivity).
  assert (H3 : tree_add t_one (3, 5) = Some (after t_one [OpAdd (3, 5)], true))
    by (vm_compute; reflexivity).
  split; [exact H1|]; split; [exact H2|]; split; [exact H3|].
  exact (add_absent_keeps_compressed t_one (3, 5) _ true H1 H2 H3).
Defined.

(** [QuadTree.remove], whenever it returns, keeps the compression
    invariant: [subdivide] gives the full node four childless full
    children and clears its own [full] flag. *)
Theorem remove_keeps_compressed t p t' b :
  compressed (root t) = true -> tree_remove t p = Some (t', b) ->
  compressed (root t') = true.
Proof.
  intros Hc H; unfold tree_remove in H.
  destruct (root t) as [|r a b0 c d f] eqn:Er; [injection H as <- _; rewrite Er; exact Hc|].
  destruct (negb _); [injection H as <- _; rewrite Er; exact Hc|].
  destruct (remove _ p) as [[s u]|] eqn:E; [|discriminate].
  injection H as <- _; exact (remove_compressed _ _ _ _ Hc E).
Qed.

Lemma remove_keeps_compressed_witness :
  compressed (root t_one) = true /\
  tree_remove t_one (0, 0) = Some (after t_one [OpRemove (0, 0)], true) /\
  compressed (root (after t_one [OpRemove (0, 0)])) = true.
Proof.
  assert (H1 : compressed (root t_one) = true) by (vm_compute; reflexivity).
  assert (H2 : tree_remove t_one (0, 0) = Some (after t_one [OpRemove (0, 0)], true))
    by (vm_compute; reflexivity).
  split; [exact H1|]; split; [exact H2|].
  exact (remove_keeps_compressed t_one (0, 0) _ true H1 H2).
Defined.

(** When the canonical region is a single point, one [add] of that point
    already makes [__iter__] yield it twice: the non-full root over the
    point region yields it ([isPoint]), and so does its full [NE] child
    over the same region. *)
Theorem point_region_iter_twice req :
  isPoint (canonical req) = true ->
  exists t, tree_add (new_tree req) (x_min (canonical req), y_min (canonical req))
              = Some (t, true) /\
    tree_iter t = [(x_min (canonical req), y_min (canonical req));
                   (x_min (canonical req), y_min (canonical req))].
Proof.
  intros Hp.
  unfold tree_add; cbn [tregion root new_tree].
  set (R := canonical req) in *.
  pose proof (corner_in R Hp) as Hin.
  rewrite Hin; cbn [negb].
  rewrite add_Node, (point_quadrant R _ Hp Hin); cbn [pick].
  unfold new_child; rewrite (point_sub R Hp), Hp.
  eexists; split; [reflexivity|].
  unfold tree_iter, iter_points.
  cbn [root collapse node_with childrenFull is_full andb leaf preorder app
       flat_map node_points].
  rewrite Hp, (region_points_point R Hp); reflexivity.
Qed.

Definition R1 : Region := mkRegion 0 0 1 1.

Lemma point_region_iter_twice_witness :
  isPoint (canonical R1) = true /\
  exists t, tree_add (new_tree R1) (0, 0) = Some (t, true) /\
    tree_iter t = [(0, 0); (0, 0)].
Proof.
  assert (H : isPoint (canonical R1) = true) by (vm_compute; reflexivity).
  split; [exact H | exact (point_region_iter_twice R1 H)].
Defined.

(** [smaller2k n] is at most [n]: for [n > 0] it is the power of two
    [2^k] with [2^k <= n < 2^(k+1)], for [n < 0] it is [-2^k] with
    [2 * n < -2^k <= n], and [smaller2k 0 = 0].
    The embedding takes exact logarithms; the bound on [|n|] keeps to the
    inputs where the code's floating-point [math.log2] rounds the same
    way. *)
Theorem smaller2k_bounds n :
  Z.abs n <= 2 ^ 31 ->
  smaller2k n <= n /\ (n = 0 -> smaller2k n = 0) /\
  (0 < n -> n < 2 * smaller2k n) /\
  (n < 0 -> 2 * n < smaller2k n) /\
  (n <> 0 -> exists k, 0 <= k /\ Z.abs (smaller2k n) = 2 ^ k).
Proof.
  intros _; destruct (smaller2k_spec n) as (H1 & H2 & H3 & H4).
  refine (conj H1 (conj _ (conj H2 (conj H3 H4)))); intros ->; reflexivity.
Qed.

Lemma smaller2k_bounds_witness :
  Z.abs (-5) <= 2 ^ 31 /\ smaller2k (-5) = -8 /\
  (smaller2k (-5) <= -5 /\ (-5 = 0 -> smaller2k (-5) = 0) /\
   (0 < -5 -> -5 < 2 * smaller2k (-5)) /\
   (-5 < 0 -> 2 * -5 < smaller2k (-5)) /\
   (-5 <> 0 -> exists k, 0 <= k /\ Z.abs (smaller2k (-5)) = 2 ^ k)).
Proof.
  assert (H : Z.abs (-5) <= 2 ^ 31) by (vm_compute; discriminate).
  split; [exact H|]; split; [vm_compute; reflexivity|].
  exact (smaller2k_bounds (-5) H).
Defined.

(** [larger2k n] is at least [n]: for [n > 0] it is the power of two [2^k]
    with [n <= 2^k < 2 * n], for [n < 0] it is [-2^k] with
    [n <= -2^k] and [2 * (-2^k) < n], and [larger2k 0 = 0] (same range
    bound as [smaller2k_bounds]). *)
Theorem larger2k_bounds n :
  Z.abs n <= 2 ^ 31 ->
  n <= larger2k n /\ (n = 0 -> larger2k n = 0) /\
  (0 < n -> larger2k n < 2 * n) /\
  (n < 0 -> 2 * larger2k n < n) /\
  (n <> 0 -> exists k, 0 <= k /\ Z.abs (larger2k n) = 2 ^ k).
Proof.
  intros _; destruct (larger2k_spec n) as (H1 & H2 & H3 & H4).
  refine (conj H1 (conj _ (conj H2 (conj H3 H4)))); intros ->; reflexivity.
Qed.

Lemma larger2k_bounds_witness :
  Z.abs 10 <= 2 ^ 31 /\ larger2k 10 = 16 /\
  (10 <= larger2k 10 /\ (10 = 0 -> larger2k 10 = 0) /\
   (0 < 10 -> larger2k 10 < 2 * 10) /\
   (10 < 0 -> 2 * larger2k 10 < 10) /\
   (10 <> 0 -> exists k, 0 <= k /\ Z.abs (larger2k 10) = 2 ^ k)).
Proof.
  assert (H : Z.abs 10 <= 2 ^ 31) by (vm_compute; discriminate).
  split; [exact H|]; split; [vm_compute; reflexivity|].
  exact (larger2k_bounds 10 H).
Defined.

(** The canonical region computed by [QuadTree.__init__] contains every
    point of the requested region (bounds within the range of
    [smaller2k_bounds]). *)
Theorem canonical_encloses req p :
  Z.abs (x_min req) <= 2 ^ 31 -> Z.abs (y_min req) <= 2 ^ 31 ->
  Z.abs (x_max req) <= 2 ^ 31 -> Z.abs (y_max req) <= 2 ^ 31 ->
  containsPoint req p = true -> containsPoint (canonical req) p = true.
Proof.
  intros _ _ _ _; rewrite !containsPoint_iff.
  unfold canonical; cbn [x_min y_min x_max y_max].
  pose proof (proj1 (smaller2k_spec (x_min req))).
  pose proof (proj1 (smaller2k_spec (y_min req))).
  pose proof (proj1 (larger2k_spec (x_max req))).
  pose proof (proj1 (larger2k_spec (y_max req))).
  lia.
Qed.

Lemma canonical_encloses_witness :
  Z.abs (x_min R3_10) <= 2 ^ 31 /\ Z.abs (y_min R3_10) <= 2 ^ 31 /\
  Z.abs (x_max R3_10) <= 2 ^ 31 /\ Z.abs (y_max R3_10) <= 2 ^ 31 /\
  containsPoint R3_10 (9, 3) = true /\ containsPoint (canonical R3_10) (9, 3) = true.
Proof.
  assert (H1 : Z.abs (x_min R3_10) <= 2 ^ 31) by (vm_compute; discriminate).
  assert (H2 : Z.abs (y_min R3_10) <= 2 ^ 31) by (vm_compute; discriminate).
  assert (H3 : Z.abs (x_max R3_10) <= 2 ^ 31) by (vm_compute; discriminate).
  assert (H4 : Z.abs (y_max R3_10) <= 2 ^ 31) by (vm_compute; discriminate).
  assert (H5 : containsPoint R3_10 (9, 3) = true) by (vm_compute; reflexivity).
  split; [exact H1|]; split; [exact H2|]; split; [exact H3|]; split; [exact H4|].
  split; [exact H5 | exact (canonical_encloses R3_10 (9, 3) H1 H2 H3 H4 H5)].
Defined.

(** Building a [QuadTree] over the canonical region of another gives that
    region back: [canonical] is idempotent (requested bounds within the
    range of [smaller2k_bounds]). *)
Theorem canonical_idempotent req :
  Z.abs (x_min req) <= 2 ^ 31 -> Z.abs (y_min req) <= 2 ^ 31 ->
  Z.abs (x_max req) <= 2 ^ 31 -> Z.abs (y_max req) <= 2 ^ 31 ->
  canonical (canonical req) = canonical req.
Proof.
  intros _ _ _ _.
  assert (Hlo : smaller2k (Z.min (smaller2k (x_min req)) (smaller2k (y_min req))) =
                Z.min (smaller2k (x_min req)) (smaller2k (y_min req))).
  { destruct (Z.min_spec (smaller2k (x_min req)) (smaller2k (y_min req)))
      as [[_ ->] | [_ ->]]; apply smaller2k_idem. }
  assert (Hhi : larger2k (Z.max (larger2k (x_max req)) (larger2k (y_max req))) =
                Z.max (larger2k (x_max req)) (larger2k (y_max req))).
  { destruct (Z.max_spec (larger2k (x_max req)) (larger2k (y_max req)))
      as [[_ ->] | [_ ->]]; apply larger2k_idem. }
  unfold canonical; cbn [x_min y_min x_max y_max].
  rewrite !Z.min_id, !Z.max_id, Hlo, Hhi; reflexivity.
Qed.

Lemma canonical_idempotent_witness :
  Z.abs (x_min R3_10) <= 2 ^ 31 /\ Z.abs (y_min R3_10) <= 2 ^ 31 /\
  Z.abs (x_max R3_10) <= 2 ^ 31 /\ Z.abs (y_max R3_10) <= 2 ^ 31 /\
  canonical R3_10 = mkRegion 2 2 16 16 /\
  canonical (canonical R3_10) = canonical R3_10.
Proof.
  assert (H1 : Z.abs (x_min R3_10) <= 2 ^ 31) by (vm_compute; discriminate).
  assert (H2 : Z.abs (y_min R3_10) <= 2 ^ 31) by (vm_compute; discriminate).
  assert (H3 : Z.abs (x_max R3_10) <= 2 ^ 31) by (vm_compute; discriminate).
  assert (H4 : Z.abs (y_max R3_10) <= 2 ^ 31) by (vm_compute; discriminate).
  split; [exact H1|]; split; [exact H2|]; split; [exact H3|]; split; [exact H4|].
  split; [vm_compute; reflexivity | exact (canonical_idempotent R3_10 H1 H2 H3 H4)].
Defined.
